(** * Frame selection of the Sharp Frame Extractor

    A shallow embedding of [getSelectedFrameIndices] (src/App.tsx) and of
    the array operations it is written with, followed by the properties
    of the five selection policies.

    Numbers.  A JavaScript number that holds a sharpness score is a finite
    double; every finite double is a rational and [>=], [===] and the sign
    of a difference of two finite doubles agree with the rationals, so a
    score is a [Q].  Indices, counts and the integer settings are [Z]. *)

From Stdlib Require Import ZArith QArith Lia Lqa Ascii.
From stdpp Require Import base strings list sorting gmap sets.

Local Open Scope Z_scope.

(** ** Data model (src/types.ts) *)

Record VideoInfo := {
  duration : Q;
  fps : Q;
  width : Z;
  height : Z;
  total_frames : Z
}.

Record FrameData := {
  frame_number : Z;
  timestamp : Q;
  sharpness : Q;
  path : option string
}.

Record AnalysisResult := {
  video_info : VideoInfo;
  frames : list FrameData;
  suggested_threshold : Q;
  suggested_frame_count : Z
}.

Inductive SelectionMode :=
  | ModeThreshold
  | ModeBatch
  | ModeBestN
  | ModeTopPercentage
  | ModeManual.

Record SelectionSettings := {
  mode : SelectionMode;
  batchSize : Z;
  batchBuffer : Z;
  bestN : Z;
  topPercentage : Z
}.

(** The state of the [App] component that [getSelectedFrameIndices]
    closes over. *)
Record AppState := {
  analysisResult : option AnalysisResult;
  selectionMode : SelectionMode;
  selectionSettings : SelectionSettings;
  threshold : Q;
  minFrameDistance : Z;
  maxFrames : option Z;
  manuallySelectedFrames : gset Z
}.

(** An array element paired with its position: [{ score, idx }] in the
    bestN and topPercentage cases, [{ ...f, idx }] in the threshold case. *)
Record Indexed (A : Type) := MkIndexed { item : A; idx : Z }.
Arguments MkIndexed {A} _ _.
Arguments item {A} _.
Arguments idx {A} _.

(** ** JavaScript array operations *)

Module JS.

(** [l.slice(start, stop)]: a negative bound counts from the end, both
    bounds are clamped to the array. *)
Definition rel_index (len k : Z) : Z :=
  if k <? 0 then Z.max (len + k) 0 else Z.min k len.

Definition slice {A} (l : list A) (start stop : Z) : list A :=
  let len := Z.of_nat (length l) in
  let k := rel_index len start in
  let fin := rel_index len stop in
  take (Z.to_nat (fin - k)) (drop (Z.to_nat k) l).

(** [l.sort(cmp)], a stable sort; [le a b] stands for [cmp(a, b) <= 0]. *)
Fixpoint insert {A} (le : A → A → bool) (x : A) (l : list A) : list A :=
  match l with
  | [] => [x]
  | y :: l' => if le x y then x :: l else y :: insert le x l'
  end.

Fixpoint sort {A} (le : A → A → bool) (l : list A) : list A :=
  match l with
  | [] => []
  | x :: l' => insert le x (sort le l')
  end.

(** The comparator [(a, b) => a - b]. *)
Definition ascending (a b : Z) : bool := a - b <=? 0.

(** The comparator [(a, b) => b.score - a.score] (also
    [b.sharpness - a.sharpness]) on the sort key [key]. *)
Definition descending {A} (key : A → Q) (a b : A) : bool :=
  Qle_bool (key b - key a) 0.

(** [Math.max(...l)]; [None] is [-Infinity], the result on no argument. *)
Definition math_max (l : list Q) : option Q :=
  foldl (λ acc x, match acc with
                  | None => Some x
                  | Some m => Some (if Qle_bool x m then m else x)
                  end) None l.

(** [l.indexOf(v)] with the strict equality of numbers, [-1] when absent. *)
Fixpoint indexOf_from (l : list Q) (v : Q) (k : Z) : Z :=
  match l with
  | [] => -1
  | x :: l' => if Qeq_bool x v then k else indexOf_from l' v (k + 1)
  end.

Definition indexOf (l : list Q) (v : option Q) : Z :=
  match v with
  | None => -1
  | Some q => indexOf_from l q 0
  end.

(** [l[i]] for a number [i]: [undefined] ([None]) outside the array. *)
Definition get {A} (l : list A) (i : Z) : option A :=
  if i <? 0 then None else l !! Z.to_nat i.

(** [Math.ceil(a / b)] for integers [a] and [b > 0]. *)
Definition ceil_div (a b : Z) : Z := - ((- a) / b).

(** A number is truthy unless it is [undefined] or zero. *)
Definition truthy (m : option Z) : bool :=
  match m with
  | Some v => negb (v =? 0)
  | None => false
  end.

End JS.

(** ** The selection function (src/App.tsx, [getSelectedFrameIndices]) *)

(** [l.map((x, idx) => ({ x, idx }))] *)
Definition with_index {A} (l : list A) : list (Indexed A) :=
  imap (λ i x, MkIndexed x (Z.of_nat i)) l.

(** The [while] loop of the batch case.  [fuel] bounds the number of
    iterations: [None] means the loop has not left within [fuel] rounds. *)
Fixpoint batch_loop (fuel : nat) (sharpnessScores : list Q)
    (batchSize batchBuffer : Z) (i : Z) (selected : list Z) : option (list Z) :=
  let len := Z.of_nat (length sharpnessScores) in
  if i <? len then
    match fuel with
    | O => None
    | S fuel' =>
        let batchEnd := Z.min (i + batchSize) len in
        let batchScores := JS.slice sharpnessScores i batchEnd in
        let maxIdx := JS.indexOf batchScores (JS.math_max batchScores) in
        batch_loop fuel' sharpnessScores batchSize batchBuffer
          (batchEnd + batchBuffer) (selected ++ [i + maxIdx])
    end
  else Some selected.

(** The [for ... of] loop of the threshold case that enforces the minimum
    distance between kept frames. *)
Fixpoint distance_filter {A} (minFrameDistance : Z) (lastSelected : option Z)
    (l : list (Indexed A)) : list (Indexed A) :=
  match l with
  | [] => []
  | frame :: rest =>
      if match lastSelected with
         | None => true
         | Some last => minFrameDistance <=? idx frame - last
         end
      then frame :: distance_filter minFrameDistance (Some (idx frame)) rest
      else distance_filter minFrameDistance lastSelected rest
  end.

Definition select_manual (manuallySelected : gset Z) : list Z :=
  JS.sort JS.ascending (elements manuallySelected).

Definition select_batch (fuel : nat) (sharpnessScores : list Q)
    (batchSize batchBuffer : Z) : option (list Z) :=
  match batch_loop fuel sharpnessScores batchSize batchBuffer 0 [] with
  | Some selected => Some (JS.sort JS.ascending selected)
  | None => None
  end.

Definition select_bestN (sharpnessScores : list Q) (bestN : Z) : list Z :=
  let indexed := with_index sharpnessScores in
  let indexed := JS.sort (JS.descending item) indexed in
  JS.sort JS.ascending (idx <$> JS.slice indexed 0 bestN).

Definition select_topPercentage (sharpnessScores : list Q) (topPercentage : Z)
    : list Z :=
  let count :=
    JS.ceil_div (Z.of_nat (length sharpnessScores) * topPercentage) 100 in
  let indexed := with_index sharpnessScores in
  let indexed := JS.sort (JS.descending item) indexed in
  JS.sort JS.ascending (idx <$> JS.slice indexed 0 count).

Definition above_threshold (frames : list FrameData) (threshold : Q)
    : list (Indexed FrameData) :=
  List.filter (λ f, Qle_bool threshold (sharpness (item f))) (with_index frames).

Definition select_threshold (frames : list FrameData) (threshold : Q)
    (minFrameDistance : Z) (maxFrames : option Z) : list Z :=
  let framesAboveThreshold := above_threshold frames threshold in
  let framesAboveThreshold :=
    if 1 <? minFrameDistance
    then distance_filter minFrameDistance None framesAboveThreshold
    else framesAboveThreshold in
  if JS.truthy maxFrames &&
     (default 0 maxFrames <? Z.of_nat (length framesAboveThreshold))
  then
    let sorted :=
      JS.sort (JS.descending (λ f, sharpness (item f))) framesAboveThreshold in
    JS.sort JS.ascending (idx <$> JS.slice sorted 0 (default 0 maxFrames))
  else JS.sort JS.ascending (idx <$> framesAboveThreshold).

Definition getSelectedFrameIndices (fuel : nat) (st : AppState)
    : option (list Z) :=
  match analysisResult st with
  | None => Some []
  | Some ar =>
      let sharpnessScores := sharpness <$> frames ar in
      match selectionMode st with
      | ModeManual => Some (select_manual (manuallySelectedFrames st))
      | ModeBatch =>
          select_batch fuel sharpnessScores
            (batchSize (selectionSettings st))
            (batchBuffer (selectionSettings st))
      | ModeBestN =>
          Some (select_bestN sharpnessScores (bestN (selectionSettings st)))
      | ModeTopPercentage =>
          Some (select_topPercentage sharpnessScores
                  (topPercentage (selectionSettings st)))
      | ModeThreshold =>
          Some (select_threshold (frames ar) (threshold st)
                  (minFrameDistance st) (maxFrames st))
      end
  end.

(** [exportFrames]: the frames of [customResult], looked up by the
    selected indices; [None] is the [undefined] of a lookup outside the
    array. *)
Definition customResult_frames (fuel : nat) (st : AppState)
    : option (list (option FrameData)) :=
  match analysisResult st with
  | None => None
  | Some ar =>
      match getSelectedFrameIndices fuel st with
      | Some selectedIndices => Some ((λ i, JS.get (frames ar) i) <$> selectedIndices)
      | None => None
      end
  end.

(** [toggleManualSelection] *)
Definition toggleManualSelection (frameIndex : Z) (prev : gset Z) : gset Z :=
  if decide (frameIndex ∈ prev) then prev ∖ {[frameIndex]}
  else prev ∪ {[frameIndex]}.

(** ** The state setters of the component

    [useState] gives each state variable a setter; a setter replaces one
    field.  [{ ...selectionSettings, bestN: v }] replaces one setting. *)

Definition setAnalysisResult (r : option AnalysisResult) (st : AppState) : AppState :=
  {| analysisResult := r;
     selectionMode := selectionMode st;
     selectionSettings := selectionSettings st;
     threshold := threshold st;
     minFrameDistance := minFrameDistance st;
     maxFrames := maxFrames st;
     manuallySelectedFrames := manuallySelectedFrames st |}.

Definition setSelectionMode (m : SelectionMode) (st : AppState) : AppState :=
  {| analysisResult := analysisResult st;
     selectionMode := m;
     selectionSettings := selectionSettings st;
     threshold := threshold st;
     minFrameDistance := minFrameDistance st;
     maxFrames := maxFrames st;
     manuallySelectedFrames := manuallySelectedFrames st |}.

Definition setSelectionSettings (s : SelectionSettings) (st : AppState) : AppState :=
  {| analysisResult := analysisResult st;
     selectionMode := selectionMode st;
     selectionSettings := s;
     threshold := threshold st;
     minFrameDistance := minFrameDistance st;
     maxFrames := maxFrames st;
     manuallySelectedFrames := manuallySelectedFrames st |}.

Definition setThreshold (th : Q) (st : AppState) : AppState :=
  {| analysisResult := analysisResult st;
     selectionMode := selectionMode st;
     selectionSettings := selectionSettings st;
     threshold := th;
     minFrameDistance := minFrameDistance st;
     maxFrames := maxFrames st;
     manuallySelectedFrames := manuallySelectedFrames st |}.

Definition setMinFrameDistance (md : Z) (st : AppState) : AppState :=
  {| analysisResult := analysisResult st;
     selectionMode := selectionMode st;
     selectionSettings := selectionSettings st;
     threshold := threshold st;
     minFrameDistance := md;
     maxFrames := maxFrames st;
     manuallySelectedFrames := manuallySelectedFrames st |}.

Definition setMaxFrames (mf : option Z) (st : AppState) : AppState :=
  {| analysisResult := analysisResult st;
     selectionMode := selectionMode st;
     selectionSettings := selectionSettings st;
     threshold := threshold st;
     minFrameDistance := minFrameDistance st;
     maxFrames := mf;
     manuallySelectedFrames := manuallySelectedFrames st |}.

Definition setManuallySelectedFrames (s : gset Z) (st : AppState) : AppState :=
  {| analysisResult := analysisResult st;
     selectionMode := selectionMode st;
     selectionSettings := selectionSettings st;
     threshold := threshold st;
     minFrameDistance := minFrameDistance st;
     maxFrames := maxFrames st;
     manuallySelectedFrames := s |}.

Definition with_batch (size buffer : Z) (s : SelectionSettings) : SelectionSettings :=
  {| mode := mode s; batchSize := size; batchBuffer := buffer;
     bestN := bestN s; topPercentage := topPercentage s |}.

Definition with_bestN (n : Z) (s : SelectionSettings) : SelectionSettings :=
  {| mode := mode s; batchSize := batchSize s; batchBuffer := batchBuffer s;
     bestN := n; topPercentage := topPercentage s |}.

Definition with_topPercentage (pct : Z) (s : SelectionSettings) : SelectionSettings :=
  {| mode := mode s; batchSize := batchSize s; batchBuffer := batchBuffer s;
     bestN := bestN s; topPercentage := pct |}.

(** The initial values of the state variables. *)
Definition initial_state : AppState :=
  {| analysisResult := None;
     selectionMode := ModeThreshold;
     selectionSettings :=
       {| mode := ModeThreshold; batchSize := 3; batchBuffer := 1;
          bestN := 50; topPercentage := 10 |};
     threshold := 0;
     minFrameDistance := 1;
     maxFrames := None;
     manuallySelectedFrames := ∅ |}.

(** ** States for concrete runs *)

Definition frame_of_score (k : nat) (s : Q) : FrameData :=
  {| frame_number := Z.of_nat k; timestamp := 0; sharpness := s;
     path := None |}.

(** An analysis result whose frames have the given sharpness values. *)
Definition result_of_scores (scores : list Q) : AnalysisResult :=
  {| video_info := {| duration := 0; fps := 30; width := 1; height := 1;
                      total_frames := Z.of_nat (length scores) |};
     frames := imap frame_of_score scores;
     suggested_threshold := 0;
     suggested_frame_count := 0 |}.

Definition analysed (scores : list Q) : AppState :=
  setAnalysisResult (Some (result_of_scores scores)) initial_state.

Definition threshold_state (scores : list Q) (th : Q) (md : Z)
    (mf : option Z) : AppState :=
  setMaxFrames mf (setMinFrameDistance md (setThreshold th (analysed scores))).

Definition batch_state (scores : list Q) (size buffer : Z) : AppState :=
  setSelectionMode ModeBatch
    (setSelectionSettings
       (with_batch size buffer (selectionSettings initial_state))
       (analysed scores)).

Definition bestN_state (scores : list Q) (n : Z) : AppState :=
  setSelectionMode ModeBestN
    (setSelectionSettings (with_bestN n (selectionSettings initial_state))
       (analysed scores)).

Definition topPercentage_state (scores : list Q) (pct : Z) : AppState :=
  setSelectionMode ModeTopPercentage
    (setSelectionSettings
       (with_topPercentage pct (selectionSettings initial_state))
       (analysed scores)).

Definition manual_state (scores : list Q) (picked : list Z) : AppState :=
  setSelectionMode ModeManual
    (setManuallySelectedFrames
       (foldr toggleManualSelection ∅ picked) (analysed scores)).

(** The state in which BestN mode asks for [n] frames. *)
Definition as_bestN (n : Z) (st : AppState) : AppState :=
  setSelectionMode ModeBestN
    (setSelectionSettings (with_bestN n (selectionSettings st)) st).

(** ** Vocabulary of the properties

    The properties speak of positions in [sharpnessScores], the array of
    the frames' sharpness values. *)

(** Position [i] outranks position [j]: it is sharper, or as sharp and
    earlier. *)
Definition outranks (scores : list Q) (i j : Z) : Prop :=
  ∃ si sj, JS.get scores i = Some si ∧ JS.get scores j = Some sj ∧
    ((sj < si)%Q ∨ ((sj == si)%Q ∧ i < j)).

Definition passes_threshold (scores : list Q) (th : Q) (i : Z) : Prop :=
  ∃ s, JS.get scores i = Some s ∧ (th <= s)%Q.

(** [c] lists, in index order, exactly the positions that pass the
    threshold. *)
Definition threshold_candidates (scores : list Q) (th : Q) (c : list Z) : Prop :=
  StronglySorted Z.lt c ∧ ∀ i, i ∈ c ↔ passes_threshold scores th i.

(** [kept] is the greedy choice among [cands]: the first candidate is
    kept, and a candidate is kept exactly when it lies at least [md] past
    every index kept before it (that is, past the last one). *)
Definition greedy_spaced (md : Z) (cands kept : list Z) : Prop :=
  StronglySorted Z.lt kept ∧
  head kept = head cands ∧
  (∀ c, c ∈ kept → c ∈ cands) ∧
  ∀ c, c ∈ cands → (c ∈ kept ↔ ∀ a, a ∈ kept → a < c → md ≤ c - a).

(** [result] holds, in index order, [m] of the candidates, each of which
    outranks every candidate left out. *)
Definition top_by_score (scores : list Q) (m : Z) (cands result : list Z) : Prop :=
  StronglySorted Z.lt result ∧
  Z.of_nat (length result) = m ∧
  (∀ i, i ∈ result → i ∈ cands) ∧
  ∀ i j, i ∈ result → j ∈ cands → j ∉ result → outranks scores i j.

(** The three steps of Threshold-mode selection, with a limit [mf] that
    applies whenever it is set. *)
Definition threshold_stages (scores : list Q) (th : Q) (md : Z)
    (mf : option Z) (result : list Z) : Prop :=
  ∃ passing kept,
    threshold_candidates scores th passing ∧
    (if 1 <? md then greedy_spaced md passing kept else kept = passing) ∧
    match mf with
    | Some m =>
        if m <? Z.of_nat (length kept)
        then top_by_score scores m kept result
        else result = kept
    | None => result = kept
    end.

(** [p] is the pick of the window [lo, hi): a position of maximal score,
    the earliest such. *)
Definition window_pick (scores : list Q) (lo hi p : Z) : Prop :=
  lo ≤ p < hi ∧
  ∃ sp, JS.get scores p = Some sp ∧
    (∀ j sj, lo ≤ j < hi → JS.get scores j = Some sj → (sj <= sp)%Q) ∧
    (∀ j sj, lo ≤ j < p → JS.get scores j = Some sj → (sj < sp)%Q).

Definition window_start (bs buf : Z) (k : nat) : Z := Z.of_nat k * (bs + buf).

Definition window_end (n bs buf : Z) (k : nat) : Z :=
  Z.min (window_start bs buf k + bs) n.

Definition window_count (n bs buf : Z) : Z := JS.ceil_div n (bs + buf).

(** Indexed elements in index order. *)
Definition idx_lt {A} (a b : Indexed A) : Prop := idx a < idx b.

(** The order a stable sort by descending [key] puts indexed elements in,
    when it starts from index order. *)
Definition before {A} (key : Indexed A → Q) (a b : Indexed A) : Prop :=
  (key b < key a)%Q ∨ ((key b == key a)%Q ∧ idx a < idx b).

(** The value of [framesAboveThreshold] after the threshold and distance
    steps of the threshold case. *)
Definition kept_frames (frames : list FrameData) (th : Q) (md : Z)
    : list (Indexed FrameData) :=
  if 1 <? md
  then distance_filter md None (above_threshold frames th)
  else above_threshold frames th.

(** ** The rest of the component (src/App.tsx) *)

(** [getSelectedFrameCount]: the number shown as "Selected" and as
    "frames will be exported". *)
Definition getSelectedFrameCount (fuel : nat) (st : AppState) : option Z :=
  (λ l : list Z, Z.of_nat (length l)) <$> getSelectedFrameIndices fuel st.

Global Instance SelectionMode_eq_dec : EqDecision SelectionMode.
Proof. solve_decision. Defined.

Module Chart.

(** One bar of the sharpness chart. *)
Record Entry := {
  index : Z;
  frame : Z;
  sharpness : Q;
  timestamp : string;
  isSelected : bool;
  isManuallySelected : bool
}.

End Chart.

(** [getChartData].  The two display roundings, [Math.round(x * 100) / 100]
    and [x.toFixed(2)], are floating-point operations of the platform and
    are taken as the parameters [round2] and [toFixed2]. *)
Definition getChartData (round2 : Q → Q) (toFixed2 : Q → string)
    (fuel : nat) (st : AppState) : option (list Chart.Entry) :=
  match analysisResult st with
  | None => Some []
  | Some ar =>
      match getSelectedFrameIndices fuel st with
      | None => None
      | Some selectedIndices =>
          let selectedSet : gset Z := list_to_set selectedIndices in
          Some (imap (λ (i : nat) (f : FrameData),
                  {| Chart.index := Z.of_nat i;
                     Chart.frame := frame_number f;
                     Chart.sharpness := round2 (sharpness f);
                     Chart.timestamp := toFixed2 (timestamp f);
                     Chart.isSelected :=
                       bool_decide (Z.of_nat i ∈ selectedSet) ||
                       (bool_decide (selectionMode st = ModeManual) &&
                        bool_decide (Z.of_nat i ∈ manuallySelectedFrames st));
                     Chart.isManuallySelected :=
                       bool_decide (Z.of_nat i ∈ manuallySelectedFrames st) |})
                  (frames ar))
      end
  end.

Module Earlier.

(** [getSelectedFrameCount] of the first [App] component of src/App.tsx
    (lines 189-213), which reads [analysisResult], [threshold],
    [minFrameDistance] and [maxFrames]; it runs the distance loop whatever
    the minimum distance is. *)
Definition getSelectedFrameCount (st : AppState) : Z :=
  match analysisResult st with
  | None => 0
  | Some ar =>
      let framesAboveThreshold := above_threshold (frames ar) (threshold st) in
      let selectedFrames :=
        distance_filter (minFrameDistance st) None framesAboveThreshold in
      if JS.truthy (maxFrames st) &&
         (default 0 (maxFrames st) <? Z.of_nat (length selectedFrames))
      then default 0 (maxFrames st)
      else Z.of_nat (length selectedFrames)
  end.

End Earlier.

(** ** The time range of the analysis *)

Record TimeRange := {
  videoDuration : Q;
  startTime : Q;
  endTime : Q
}.

(** The state after the metadata of a chosen video has arrived. *)
Definition metadataLoaded (d : Q) : TimeRange :=
  {| videoDuration := d; startTime := 0; endTime := d |}.

(** The [onChange] handlers of the two range sliders; [val] is the result
    of [parseFloat], [None] for [NaN]. *)
Definition onStartSliderChange (val : option Q) (tr : TimeRange) : TimeRange :=
  match val with
  | Some v =>
      if negb (Qle_bool (endTime tr) v)
      then {| videoDuration := videoDuration tr; startTime := v;
              endTime := endTime tr |}
      else tr
  | None => tr
  end.

Definition onEndSliderChange (val : option Q) (tr : TimeRange) : TimeRange :=
  match val with
  | Some v =>
      if negb (Qle_bool v (startTime tr))
      then {| videoDuration := videoDuration tr; startTime := startTime tr;
              endTime := v |}
      else tr
  | None => tr
  end.

Inductive SliderEvent :=
  | StartSlider (val : option Q)
  | EndSlider (val : option Q).

Definition slider_value (e : SliderEvent) : option Q :=
  match e with StartSlider v | EndSlider v => v end.

Definition onSliderEvent (tr : TimeRange) (e : SliderEvent) : TimeRange :=
  match e with
  | StartSlider v => onStartSliderChange v tr
  | EndSlider v => onEndSliderChange v tr
  end.

(** The [startTime] and [endTime] arguments that [analyzeVideo] passes to
    the backend; [None] is [null], the whole video. *)
Definition analyzeVideo_range (tr : TimeRange) : option Q * option Q :=
  (if negb (Qle_bool (startTime tr) 0) || negb (Qle_bool (endTime tr) 0)
   then Some (startTime tr) else None,
   if negb (Qle_bool (startTime tr) 0) || negb (Qle_bool (endTime tr) 0)
   then Some (endTime tr) else None).

(** ** The name of the export folder ([exportFrames])

    Paths are strings of bytes; the characters the code looks for are
    ASCII. *)

Module Path.

Definition is_char (c d : ascii) : bool := bool_decide (c = d).

(** [s.split(sep)] for a one-character separator. *)
Fixpoint split (sep : ascii) (s : list ascii) : list (list ascii) :=
  match s with
  | [] => [[]]
  | c :: s' =>
      if is_char c sep then [] :: split sep s'
      else match split sep s' with
           | piece :: pieces => (c :: piece) :: pieces
           | [] => [[c]]
           end
  end.

(** [s.replace(/\.[^/.]+$/, '')]: the first position that holds a dot
    followed, up to the end, by one or more characters other than [/] and
    [.] is where the string is cut. *)
Fixpoint strip_extension (s : list ascii) : list ascii :=
  match s with
  | [] => []
  | c :: s' =>
      if is_char c "." &&
         negb (bool_decide (s' = [])) &&
         forallb (λ d, negb (is_char d "/" || is_char d ".")) s'
      then []
      else c :: strip_extension s'
  end.

(** [videoPath.split('/').pop()?.replace(/\.[^/.]+$/, '') || 'video'] *)
Definition videoName (videoPath : list ascii) : list ascii :=
  let name := strip_extension (default [] (last (split "/" videoPath))) in
  if bool_decide (name = []) then String.list_ascii_of_string "video" else name.

(** [iso.replace(/[:.]/g, '-').split('T')[0]] for the ISO string [iso] of
    the current date. *)
Definition timestamp (iso : list ascii) : list ascii :=
  default []
    (head (split "T"
             ((λ c, if is_char c ":" || is_char c "." then "-"%char else c)
                <$> iso))).

Definition folderName (videoPath iso : list ascii) : list ascii :=
  videoName videoPath ++ String.list_ascii_of_string "_frames_" ++ timestamp iso.

Definition outputDir (baseDir videoPath iso : list ascii) : list ascii :=
  baseDir ++ String.list_ascii_of_string "/" ++ folderName videoPath iso.

End Path.

(** ** Vocabulary of the further properties *)

(** [o1] is no later than [o2] as the last kept index of a distance scan;
    [None], nothing kept yet, is the earliest. *)
Definition last_le (o1 o2 : option Z) : Prop :=
  match o1, o2 with
  | None, _ => True
  | Some a, Some b => a ≤ b
  | Some _, None => False
  end.

(** Neighbours in [l] are at least [md] apart. *)
Definition spaced (md : Z) (l : list Z) : Prop :=
  ∀ (k : nat) a b, l !! k = Some a → l !! S k = Some b → md ≤ b - a.

(** ** Facts about the array operations *)

Section slice_facts.
Context {A : Type}.
Implicit Types l : list A.

Lemma slice_sublist l a b : JS.slice l a b `sublist_of` l.
Proof.
  unfold JS.slice. etrans; [apply sublist_take | apply sublist_drop].
Qed.

Lemma slice_from_0 l k : 0 ≤ k → JS.slice l 0 k = take (Z.to_nat k) l.
Proof.
  intros Hk. unfold JS.slice, JS.rel_index.
  replace (0 <? 0) with false by reflexivity.
  destruct (Z.ltb_spec k 0) as [?|_]; [lia|].
  rewrite (Z.min_l 0) by lia. simpl. rewrite drop_0, Z.sub_0_r.
  destruct (Z.le_gt_cases k (Z.of_nat (length l))).
  - by rewrite Z.min_l by lia.
  - rewrite Z.min_r by lia. rewrite Nat2Z.id.
    rewrite !take_ge; [done | lia | lia].
Qed.

Lemma slice_window l i j :
  0 ≤ i → i ≤ j → j ≤ Z.of_nat (length l) →
  JS.slice l i j = take (Z.to_nat (j - i)) (drop (Z.to_nat i) l).
Proof.
  intros. unfold JS.slice, JS.rel_index.
  destruct (Z.ltb_spec i 0), (Z.ltb_spec j 0); try lia.
  by rewrite !Z.min_l by lia.
Qed.

Lemma slice_elem_of l a b x : x ∈ JS.slice l a b → x ∈ l.
Proof. apply sublist_subseteq, slice_sublist. Qed.
End slice_facts.

Section sort_facts.
Context {A : Type} (le : A → A → bool).
Implicit Types l : list A.

Lemma insert_Permutation x l : JS.insert le x l ≡ₚ x :: l.
Proof.
  induction l as [|y l IH]; simpl; [done|].
  destruct (le x y); [done|]. rewrite IH. apply perm_swap.
Qed.

Lemma sort_Permutation l : JS.sort le l ≡ₚ l.
Proof.
  induction l as [|x l IH]; simpl; [done|].
  by rewrite insert_Permutation, IH.
Qed.

Lemma sort_elem_of l x : x ∈ JS.sort le l ↔ x ∈ l.
Proof. by rewrite sort_Permutation. Qed.

Lemma length_sort l : length (JS.sort le l) = length l.
Proof. by rewrite sort_Permutation. Qed.

(** A list that is already in order is left as it is. *)
Lemma sort_sorted l : Sorted (λ a b, le a b = true) l → JS.sort le l = l.
Proof.
  induction 1 as [|x l _ IH Hhd]; simpl; [done|].
  rewrite IH. destruct Hhd as [|y l Hxy]; simpl; [done|]. by rewrite Hxy.
Qed.

(** The result is in order for every transitive relation that the
    comparator decides. *)
Lemma sort_StronglySorted (R : relation A) `{!Transitive R} l :
  (∀ x y, le x y = true → R x y) →
  (∀ x y, le x y = false → R y x) →
  StronglySorted R (JS.sort le l).
Proof.
  intros Hle Hgt. induction l as [|x l IH]; simpl; [constructor|].
  revert IH. generalize (JS.sort le l). clear l.
  induction 1 as [|y l Hl IH Hy]; simpl; [repeat constructor|].
  destruct (le x y) eqn:Hxy.
  - constructor; [by constructor|]. constructor; [by apply Hle|].
    eapply Forall_impl; [done|]. intros z Hz. etrans; [by apply Hle|done].
  - constructor; [done|]. rewrite insert_Permutation.
    constructor; [by apply Hgt|done].
Qed.
End sort_facts.

Section sorted_lookup.
Context {A : Type} (R : relation A).

Lemma StronglySorted_lookup_2 (l : list A) :
  (∀ i j x y, (i < j)%nat → l !! i = Some x → l !! j = Some y → R x y) →
  StronglySorted R l.
Proof.
  induction l as [|a l IH]; intros H; constructor.
  - apply IH. intros i j x y Hij Hi Hj. apply (H (S i) (S j) x y); [lia|done..].
  - apply Forall_lookup. intros j y Hj. apply (H 0%nat (S j) a y); [lia|done..].
Qed.

Lemma StronglySorted_lookup_1 (l : list A) i j x y :
  StronglySorted R l → (i < j)%nat →
  l !! i = Some x → l !! j = Some y → R x y.
Proof.
  intros Hl. revert i j. induction Hl as [|a l _ IH Ha]; intros i j Hij Hi Hj.
  - by rewrite lookup_nil in Hi.
  - destruct j as [|j]; [lia|]. destruct i as [|i]; simplify_eq/=.
    + rewrite Forall_lookup in Ha. by eapply Ha.
    + eapply IH; [|done..]. lia.
Qed.

Lemma StronglySorted_sublist (l k : list A) :
  l `sublist_of` k → StronglySorted R k → StronglySorted R l.
Proof.
  induction 1 as [|x l k Hlk IH|x l k Hlk IH]; intros Hk;
    [done| |]; apply StronglySorted_inv in Hk as [Hk Hx].
  - constructor; [by apply IH|].
    rewrite Forall_forall in Hx |- *. intros y Hy.
    by apply Hx, (sublist_subseteq _ _ Hlk).
  - by apply IH.
Qed.
End sorted_lookup.

Section ascending_facts.
Implicit Types l : list Z.

Lemma ascending_true a b : JS.ascending a b = true ↔ a ≤ b.
Proof. unfold JS.ascending. rewrite Z.leb_le. lia. Qed.

Lemma ascending_false a b : JS.ascending a b = false ↔ b < a.
Proof. unfold JS.ascending. rewrite Z.leb_gt. lia. Qed.

Lemma StronglySorted_le_NoDup l :
  StronglySorted Z.le l → NoDup l → StronglySorted Z.lt l.
Proof.
  induction 1 as [|x l _ IH Hx]; intros Hnd; [constructor|].
  apply NoDup_cons in Hnd as [Hnin Hnd]. constructor; [by apply IH|].
  rewrite Forall_forall in Hx |- *. intros y Hy.
  assert (x ≠ y) by (by intros ->). specialize (Hx y Hy). lia.
Qed.

Lemma StronglySorted_lt_NoDup l : StronglySorted Z.lt l → NoDup l.
Proof.
  induction 1 as [|x l _ IH Hx]; [constructor|].
  apply NoDup_cons. split; [|done].
  intros Hin. rewrite Forall_forall in Hx. specialize (Hx x Hin). lia.
Qed.

(** Sorting numbers without repetition gives a strictly increasing array. *)
Lemma sort_ascending_NoDup l :
  NoDup l → StronglySorted Z.lt (JS.sort JS.ascending l).
Proof.
  intros Hnd. apply StronglySorted_le_NoDup.
  - apply (sort_StronglySorted _ Z.le).
    + by intros x y ?%ascending_true.
    + intros x y ?%ascending_false. lia.
  - by rewrite sort_Permutation.
Qed.

(** The strictly increasing arrangement of an array is what sorting
    returns. *)
Lemma sort_ascending_unique l l' :
  StronglySorted Z.lt l' → l ≡ₚ l' → JS.sort JS.ascending l = l'.
Proof.
  intros Hl' Hp. apply (StronglySorted_unique_strong Z.lt).
  - intros; lia.
  - apply sort_ascending_NoDup. rewrite Hp. by apply StronglySorted_lt_NoDup.
  - done.
  - by rewrite sort_Permutation.
Qed.

Lemma sort_ascending_sorted l :
  StronglySorted Z.lt l → JS.sort JS.ascending l = l.
Proof. intros. by apply sort_ascending_unique. Qed.
End ascending_facts.

Section get_facts.
Context {A : Type}.
Implicit Types l : list A.

Lemma get_Some l i x :
  JS.get l i = Some x ↔ 0 ≤ i ∧ l !! Z.to_nat i = Some x.
Proof.
  unfold JS.get. destruct (Z.ltb_spec i 0).
  - split; [intros [=] | intros [? _]; lia].
  - split; [by intros ? | by intros [_ ?]].
Qed.

Lemma get_of_nat l (k : nat) : JS.get l (Z.of_nat k) = l !! k.
Proof.
  unfold JS.get. destruct (Z.ltb_spec (Z.of_nat k) 0); [lia|].
  by rewrite Nat2Z.id.
Qed.

Lemma get_is_Some l i : is_Some (JS.get l i) ↔ 0 ≤ i < Z.of_nat (length l).
Proof.
  unfold JS.get. destruct (Z.ltb_spec i 0).
  - split; [by intros [??]|lia].
  - rewrite lookup_lt_is_Some. lia.
Qed.

Lemma get_fmap {B} (f : A → B) l i : JS.get (f <$> l) i = f <$> JS.get l i.
Proof. unfold JS.get. destruct (i <? 0); [done|]. apply list_lookup_fmap. Qed.
End get_facts.

Section with_index_facts.
Context {A : Type}.
Implicit Types l : list A.

Lemma elem_of_with_index l (a : Indexed A) :
  a ∈ with_index l ↔ JS.get l (idx a) = Some (item a).
Proof.
  unfold with_index. rewrite elem_of_lookup_imap. split.
  - intros (i & x & -> & Hi). simpl. by rewrite get_of_nat.
  - intros [Hge Hi]%get_Some. exists (Z.to_nat (idx a)), (item a).
    split; [|done]. destruct a as [x k]; simpl in *. f_equal. lia.
Qed.

Lemma with_index_idx l :
  idx <$> with_index l = seqZ 0 (Z.of_nat (length l)).
Proof.
  unfold with_index, seqZ. rewrite fmap_imap, Nat2Z.id.
  rewrite <-imap_seq_0. apply imap_ext. intros i x _. simpl. lia.
Qed.

Lemma length_with_index l : length (with_index l) = length l.
Proof. apply length_imap. Qed.
End with_index_facts.

Lemma seqZ_StronglySorted m n : StronglySorted Z.lt (seqZ m n).
Proof.
  apply StronglySorted_lookup_2. intros i j x y Hij.
  rewrite !lookup_seqZ. lia.
Qed.

Lemma idx_lt_fmap {A} (l : list (Indexed A)) :
  StronglySorted idx_lt l ↔ StronglySorted Z.lt (idx <$> l).
Proof.
  split.
  - by apply StronglySorted_fmap.
  - induction l as [|a l IH]; csimpl; intros Hl; [constructor|].
    apply StronglySorted_inv in Hl as [Hl Ha]. constructor; [by apply IH|].
    by rewrite Forall_fmap in Ha.
Qed.

Lemma with_index_sorted {A} (l : list A) : StronglySorted idx_lt (with_index l).
Proof. rewrite idx_lt_fmap, with_index_idx. apply seqZ_StronglySorted. Qed.

Section descending_facts.
Context {A : Type} (key : Indexed A → Q).
Implicit Types l : list (Indexed A).

Lemma descending_true a b :
  JS.descending key a b = true ↔ (key b <= key a)%Q.
Proof.
  unfold JS.descending. rewrite Qle_bool_iff. split; intros; lra.
Qed.

Lemma descending_false a b :
  JS.descending key a b = false ↔ (key a < key b)%Q.
Proof.
  rewrite <-not_true_iff_false, descending_true. split.
  - apply Qnot_le_lt.
  - intros ? ?. lra.
Qed.

Global Instance before_trans : Transitive (before key).
Proof.
  intros a b c [Hab|[Hab ?]] [Hbc|[Hbc ?]]; unfold before.
  - left. lra.
  - left. lra.
  - left. lra.
  - right. split; [lra | lia].
Qed.

Lemma insert_descending x l :
  StronglySorted (before key) l → Forall (idx_lt x) l →
  StronglySorted (before key) (JS.insert (JS.descending key) x l).
Proof.
  induction 1 as [|y l Hl IH Hy]; simpl; intros Hx.
  { repeat constructor. }
  apply Forall_cons in Hx as [Hxy Hx].
  destruct (JS.descending key x y) eqn:Hd.
  - apply descending_true in Hd.
    assert (before key x y) as Hb.
    { destruct (Qlt_le_dec (key y) (key x)); [by left|].
      right. split; [lra | done]. }
    constructor; [by constructor|]. constructor; [done|].
    eapply Forall_impl; [exact Hy|]. intros z Hz. by trans y.
  - apply descending_false in Hd.
    constructor; [by apply IH|]. rewrite insert_Permutation.
    constructor; [by left | done].
Qed.

(** Sorting by descending key is stable: elements of equal key stay in
    index order. *)
Lemma sort_descending_stable l :
  StronglySorted idx_lt l →
  StronglySorted (before key) (JS.sort (JS.descending key) l).
Proof.
  induction 1 as [|x l Hl IH Hx]; simpl; [constructor|].
  apply insert_descending; [done|]. by rewrite sort_Permutation.
Qed.

Lemma idx_inj_sorted l a b :
  StronglySorted idx_lt l → a ∈ l → b ∈ l → idx a = idx b → a = b.
Proof.
  induction 1 as [|x l Hl IH Hx]; intros Ha Hb Hab.
  { by apply elem_of_nil in Ha. }
  rewrite Forall_forall in Hx. unfold idx_lt in Hx.
  apply elem_of_cons in Ha as [->|Ha], Hb as [->|Hb]; [done| | |by apply IH].
  - specialize (Hx b Hb). lia.
  - specialize (Hx a Ha). lia.
Qed.

Lemma idx_NoDup l : StronglySorted idx_lt l → NoDup (idx <$> l).
Proof. intros. by apply StronglySorted_lt_NoDup, idx_lt_fmap. Qed.

(** The limit step of the threshold, bestN and topPercentage cases: sort
    by descending key, keep a slice, return its indices in ascending
    order.  For every bound [m] the result is strictly increasing and
    drawn from the array. *)
Lemma top_slice_sorted l m :
  StronglySorted idx_lt l →
  StronglySorted Z.lt
    (JS.sort JS.ascending
       (idx <$> JS.slice (JS.sort (JS.descending key) l) 0 m)).
Proof.
  intros Hl. apply sort_ascending_NoDup.
  eapply sublist_NoDup; [|apply fmap_sublist, slice_sublist].
  rewrite sort_Permutation. by apply idx_NoDup.
Qed.

Lemma top_slice_elem_of l m i :
  i ∈ JS.sort JS.ascending
        (idx <$> JS.slice (JS.sort (JS.descending key) l) 0 m) →
  ∃ a, a ∈ l ∧ idx a = i.
Proof.
  rewrite sort_elem_of, list_elem_of_fmap. intros (a & -> & Ha).
  exists a. split; [|done].
  by apply slice_elem_of, sort_elem_of in Ha.
Qed.

Lemma top_slice_length l m :
  0 ≤ m →
  Z.of_nat (length (JS.sort JS.ascending
       (idx <$> JS.slice (JS.sort (JS.descending key) l) 0 m)))
  = Z.min m (Z.of_nat (length l)).
Proof.
  intros Hm. rewrite length_sort, length_fmap, slice_from_0 by done.
  rewrite length_take, length_sort. lia.
Qed.

(** Each index kept by the limit step belongs to an element that comes
    before every element left out. *)
Lemma top_slice_before l m a b :
  StronglySorted idx_lt l → 0 ≤ m →
  a ∈ l → b ∈ l →
  idx a ∈ JS.sort JS.ascending
            (idx <$> JS.slice (JS.sort (JS.descending key) l) 0 m) →
  idx b ∉ JS.sort JS.ascending
            (idx <$> JS.slice (JS.sort (JS.descending key) l) 0 m) →
  before key a b.
Proof.
  intros Hl Hm Ha Hb. rewrite !sort_elem_of, slice_from_0 by done.
  set (s := JS.sort (JS.descending key) l).
  intros Hia Hib.
  assert (StronglySorted (before key) s) as Hs
    by (by apply sort_descending_stable).
  rewrite <-(take_drop (Z.to_nat m) s) in Hs.
  apply (StronglySorted_app_1_elem_of _ _ _ _ _ Hs).
  - apply list_elem_of_fmap in Hia as (a' & Haa' & Ha').
    assert (a' ∈ l) as Ha'l.
    { eapply sort_elem_of, (sublist_subseteq _ _ (sublist_take _ _)), Ha'. }
    by rewrite (idx_inj_sorted l a a').
  - assert (b ∈ s) as Hbs by (by apply sort_elem_of).
    rewrite <-(take_drop (Z.to_nat m) s) in Hbs.
    apply elem_of_app in Hbs as [Hbs|Hbs]; [|done].
    destruct Hib. apply list_elem_of_fmap. by exists b.
Qed.
End descending_facts.

Lemma ceil_div_spec a b c :
  0 < b → JS.ceil_div a b = c ↔ b * (c - 1) < a ≤ b * c.
Proof.
  intros Hb. unfold JS.ceil_div.
  pose proof (Z.div_mod (- a) b ltac:(lia)) as Hdm.
  pose proof (Z.mod_pos_bound (- a) b Hb) as Hr.
  split; [intros <-; nia | intros Hc; nia].
Qed.

Section top_by_score_facts.
Context {A : Type} (f : A → Q).
Implicit Types (xs : list A) (l : list (Indexed A)).

Lemma sublist_with_index_sorted xs l :
  l `sublist_of` with_index xs → StronglySorted idx_lt l.
Proof.
  intros Hl. eapply StronglySorted_sublist; [done|]. apply with_index_sorted.
Qed.

Lemma sublist_with_index_get xs l a :
  l `sublist_of` with_index xs → a ∈ l →
  JS.get (f <$> xs) (idx a) = Some (f (item a)).
Proof.
  intros Hl Ha. rewrite get_fmap.
  apply (sublist_subseteq _ _ Hl), elem_of_with_index in Ha. by rewrite Ha.
Qed.

Lemma before_outranks xs l a b :
  l `sublist_of` with_index xs → a ∈ l → b ∈ l →
  before (f ∘ item) a b → outranks (f <$> xs) (idx a) (idx b).
Proof.
  intros Hl Ha Hb Hab. exists (f (item a)), (f (item b)).
  split_and!; [by eapply sublist_with_index_get..|done].
Qed.

(** The limit step keeps [min m (length l)] of the candidates, and each
    kept one outranks each one left out. *)
Lemma top_slice_top_by_score xs l m :
  l `sublist_of` with_index xs → 0 ≤ m →
  top_by_score (f <$> xs) (Z.min m (Z.of_nat (length l))) (idx <$> l)
    (JS.sort JS.ascending
       (idx <$> JS.slice (JS.sort (JS.descending (f ∘ item)) l) 0 m)).
Proof.
  intros Hl Hm.
  pose proof (sublist_with_index_sorted _ _ Hl) as Hs.
  split_and!.
  - by apply top_slice_sorted.
  - by apply top_slice_length.
  - intros i (a & Ha & <-)%top_slice_elem_of.
    apply list_elem_of_fmap. by exists a.
  - intros i j Hi (b & -> & Hb)%list_elem_of_fmap Hj.
    pose proof Hi as (a & Ha & <-)%top_slice_elem_of.
    eapply before_outranks; [done..|].
    by eapply (top_slice_before (f ∘ item) l m).
Qed.
End top_by_score_facts.

Section bestN_facts.
Implicit Types scores : list Q.

Lemma select_bestN_top scores n :
  0 ≤ n →
  top_by_score scores (Z.min n (Z.of_nat (length scores)))
    (seqZ 0 (Z.of_nat (length scores))) (select_bestN scores n).
Proof.
  intros Hn.
  pose proof (top_slice_top_by_score id scores (with_index scores) n) as H.
  rewrite list_fmap_id, length_with_index, with_index_idx in H.
  by apply H.
Qed.

Lemma select_bestN_sorted scores n :
  StronglySorted Z.lt (select_bestN scores n).
Proof. apply top_slice_sorted, with_index_sorted. Qed.

Lemma select_bestN_length_le scores n :
  (length (select_bestN scores n) ≤ length scores)%nat.
Proof.
  unfold select_bestN. rewrite length_sort, length_fmap.
  etrans; [apply sublist_length, slice_sublist|].
  by rewrite length_sort, length_with_index.
Qed.

(** Asking for at least as many frames as there are returns them all. *)
Lemma select_bestN_all scores n :
  Z.of_nat (length scores) ≤ n →
  select_bestN scores n = seqZ 0 (Z.of_nat (length scores)).
Proof.
  intros Hn. unfold select_bestN.
  apply sort_ascending_unique; [apply seqZ_StronglySorted|].
  rewrite slice_from_0 by lia.
  rewrite take_ge by (rewrite length_sort, length_with_index; lia).
  by rewrite sort_Permutation, with_index_idx.
Qed.

Lemma select_topPercentage_bestN scores pct :
  select_topPercentage scores pct =
  select_bestN scores
    (JS.ceil_div (Z.of_nat (length scores) * pct) 100).
Proof. reflexivity. Qed.
End bestN_facts.

Section threshold_facts.
Implicit Types (frames : list FrameData) (th : Q).

Lemma above_threshold_sublist frames th :
  above_threshold frames th `sublist_of` with_index frames.
Proof.
  unfold above_threshold. generalize (with_index frames). intros l.
  induction l as [|a l IH]; simpl; [done|].
  destruct (Qle_bool _ _); by constructor.
Qed.

Lemma elem_of_above_threshold frames th a :
  a ∈ above_threshold frames th ↔
  JS.get frames (idx a) = Some (item a) ∧ (th <= sharpness (item a))%Q.
Proof.
  unfold above_threshold.
  rewrite list_elem_of_In, filter_In, <-list_elem_of_In.
  by rewrite elem_of_with_index, Qle_bool_iff.
Qed.

(** The first step keeps exactly the frames that pass the threshold, in
    index order. *)
Lemma above_threshold_candidates frames th :
  threshold_candidates (sharpness <$> frames) th
    (idx <$> above_threshold frames th).
Proof.
  split.
  - apply idx_lt_fmap. eapply sublist_with_index_sorted.
    apply above_threshold_sublist.
  - intros i. unfold passes_threshold. rewrite list_elem_of_fmap. split.
    + intros (a & -> & [Ha Hth]%elem_of_above_threshold).
      exists (sharpness (item a)). by rewrite get_fmap, Ha.
    + intros (s & Hs & Hth). rewrite get_fmap in Hs.
      destruct (JS.get frames i) as [fd|] eqn:Hi; simplify_eq/=.
      exists (MkIndexed fd i). split; [done|].
      by apply elem_of_above_threshold.
Qed.
End threshold_facts.

Section distance_filter_facts.
Context {A : Type}.
Implicit Types (l : list (Indexed A)) (md : Z) (last : option Z).

Lemma distance_filter_sublist md last l :
  distance_filter md last l `sublist_of` l.
Proof.
  revert last. induction l as [|a l IH]; intros last; simpl; [done|].
  destruct (match last with None => true | Some p => md <=? idx a - p end);
    by constructor.
Qed.

(** The first candidate is kept. *)
Lemma distance_filter_head md l :
  head (distance_filter md None l) = head l.
Proof. by destruct l. Qed.

(** A candidate is kept exactly when it is far enough from everything
    kept before it, the last index kept before the scan included. *)
Lemma elem_of_distance_filter md last l c :
  StronglySorted idx_lt l → c ∈ l →
  c ∈ distance_filter md last l ↔
  (∀ a, a ∈ distance_filter md last l → idx a < idx c → md ≤ idx c - idx a) ∧
  (∀ p, last = Some p → md ≤ idx c - p).
Proof.
  intros Hl. revert last c.
  induction Hl as [|x l Hl IH Hx]; intros last c Hc.
  { by apply elem_of_nil in Hc. }
  rewrite Forall_forall in Hx. unfold idx_lt in Hx.
  assert (x ∉ l) as Hxl by (intros ?%Hx; lia).
  pose proof (distance_filter_sublist md last l) as Hsub1.
  pose proof (distance_filter_sublist md (Some (idx x)) l) as Hsub2.
  simpl.
  destruct (match last with None => true | Some p => md <=? idx x - p end)
    eqn:Hkeep.
  - apply elem_of_cons in Hc as [->|Hc].
    + split; [intros _|intros _; by left]. split.
      * intros a [->|Ha]%elem_of_cons; [lia|].
        apply (sublist_subseteq _ _ Hsub2), Hx in Ha. lia.
      * intros p ->. lia.
    + rewrite elem_of_cons, (IH (Some (idx x)) c Hc).
      pose proof (Hx c Hc) as Hxc. split.
      * intros [->|[Hfar Hlast]]; [lia|]. split.
        -- intros a [->|Ha]%elem_of_cons; [intros _; by apply Hlast|].
           by apply Hfar.
        -- intros p ->. specialize (Hlast _ eq_refl). lia.
      * intros [Hfar Hlast]. right. split.
        -- intros a Ha. apply Hfar. by right.
        -- intros p [= <-]. apply Hfar; [by left|done].
  - destruct last as [p|]; [|done]. apply Z.leb_gt in Hkeep.
    apply elem_of_cons in Hc as [->|Hc].
    + split.
      * intros Hin%(sublist_subseteq _ _ Hsub1). done.
      * intros [_ Hlast]. specialize (Hlast _ eq_refl). lia.
    + by apply IH.
Qed.

(** The distance step is the greedy choice among the candidates. *)
Lemma distance_filter_greedy md l :
  StronglySorted idx_lt l →
  greedy_spaced md (idx <$> l) (idx <$> distance_filter md None l).
Proof.
  intros Hl.
  pose proof (distance_filter_sublist md None l) as Hsub.
  split_and!.
  - apply idx_lt_fmap. by eapply StronglySorted_sublist.
  - rewrite !head_lookup, !list_lookup_fmap, <-!head_lookup.
    by rewrite distance_filter_head.
  - intros c (a & -> & Ha)%list_elem_of_fmap.
    apply list_elem_of_fmap. exists a. split; [done|].
    by apply (sublist_subseteq _ _ Hsub).
  - intros c (x & -> & Hx)%list_elem_of_fmap.
    assert (idx x ∈ idx <$> distance_filter md None l ↔
            x ∈ distance_filter md None l) as ->.
    { rewrite list_elem_of_fmap. split; [|by exists x].
      intros (y & Hxy & Hy).
      rewrite (idx_inj_sorted l x y); [done..| |done].
      by apply (sublist_subseteq _ _ Hsub). }
    rewrite (elem_of_distance_filter md None l x Hl Hx). split.
    + intros [Hfar _] a (y & -> & Hy)%list_elem_of_fmap. by apply Hfar.
    + intros Hfar. split; [|done]. intros a Ha. apply Hfar.
      apply list_elem_of_fmap. by exists a.
Qed.
End distance_filter_facts.

Section max_facts.
Implicit Types l : list Q.

Lemma math_max_from acc l :
  ∃ m, foldl (λ acc x, match acc with
                       | None => Some x
                       | Some m => Some (if Qle_bool x m then m else x)
                       end) (Some acc) l = Some m ∧
       (m = acc ∨ m ∈ l) ∧ (acc <= m)%Q ∧ ∀ x, x ∈ l → (x <= m)%Q.
Proof.
  revert acc. induction l as [|y l IH]; intros acc; simpl.
  { exists acc. split_and!; [done|by left|lra|]. by intros x ?%elem_of_nil. }
  destruct (Qle_bool y acc) eqn:Hy.
  - apply Qle_bool_iff in Hy. destruct (IH acc) as (m & -> & Hm & Hacc & Hall).
    exists m. split_and!; [done| |done|].
    + destruct Hm; [by left | right; by right].
    + intros x [->|Hx]%elem_of_cons; [lra | by apply Hall].
  - assert (acc < y)%Q as Hlt.
    { apply Qnot_le_lt. intros H%Qle_bool_iff. congruence. }
    destruct (IH y) as (m & -> & Hm & Hacc & Hall).
    exists m. split_and!; [done| |lra|].
    + right. destruct Hm as [->|Hm]; [by left | by right].
    + intros x [->|Hx]%elem_of_cons; [lra | by apply Hall].
Qed.

(** [Math.max] of a non-empty array is one of its elements and bounds
    them all. *)
Lemma math_max_spec l :
  l ≠ [] → ∃ m, JS.math_max l = Some m ∧ m ∈ l ∧ ∀ x, x ∈ l → (x <= m)%Q.
Proof.
  destruct l as [|y l]; [done|]. intros _. unfold JS.math_max. simpl.
  destruct (math_max_from y l) as (m & -> & Hm & Hy & Hall).
  exists m. split_and!; [done| |].
  - destruct Hm as [->|Hm]; [by left | by right].
  - intros x [->|Hx]%elem_of_cons; [done | by apply Hall].
Qed.

(** [indexOf] finds the first position that holds a number equal to [v]. *)
Lemma indexOf_from_spec l v k :
  (∃ x, x ∈ l ∧ (x == v)%Q) →
  ∃ (j : nat) x, JS.indexOf_from l v k = k + Z.of_nat j ∧
    l !! j = Some x ∧ (x == v)%Q ∧
    ∀ (j' : nat) y, (j' < j)%nat → l !! j' = Some y → ¬ (y == v)%Q.
Proof.
  revert k. induction l as [|y l IH]; intros k (x & Hx & Hxv).
  { by apply elem_of_nil in Hx. }
  simpl. destruct (Qeq_bool y v) eqn:Hy.
  - apply Qeq_bool_iff in Hy. exists 0%nat, y.
    split_and!; [lia|done|done|]. intros; lia.
  - assert (¬ (y == v)%Q) as Hne.
    { intros H%Qeq_bool_iff. congruence. }
    apply elem_of_cons in Hx as [->|Hx]; [done|].
    destruct (IH (k + 1)) as (j & z & -> & Hj & Hz & Hfirst); [by exists x|].
    exists (S j), z. split_and!; [lia|done|done|].
    intros [|j'] y' Hlt Hj'; simplify_eq/=; [done|].
    eapply Hfirst; [|done]. lia.
Qed.
End max_facts.

Section window_facts.
Context (bs buf : Z).
Hypothesis Hbs : 1 ≤ bs.
Hypothesis Hbuf : 0 ≤ buf.

Lemma window_start_S k :
  window_start bs buf (S k) = window_start bs buf k + bs + buf.
Proof. unfold window_start. lia. Qed.

Lemma window_start_nonneg k : 0 ≤ window_start bs buf k.
Proof. unfold window_start. nia. Qed.

Lemma window_start_mono j k :
  (j ≤ k)%nat → window_start bs buf j ≤ window_start bs buf k.
Proof. unfold window_start. nia. Qed.

(** Windows do not overlap. *)
Lemma window_disjoint n j k :
  (j < k)%nat → window_end n bs buf j ≤ window_start bs buf k.
Proof.
  intros Hjk. pose proof (window_start_mono (S j) k Hjk).
  rewrite window_start_S in *. unfold window_end. lia.
Qed.
End window_facts.

Section batch_facts.
Context (scores : list Q) (bs buf : Z).
Hypothesis Hbs : 1 ≤ bs.
Hypothesis Hbuf : 0 ≤ buf.

Local Abbreviation n := (Z.of_nat (length scores)).

(** One round of the loop picks the earliest maximum of its window. *)
Lemma batch_round_pick i e :
  0 ≤ i → i < e → e ≤ n →
  window_pick scores i e
    (i + JS.indexOf (JS.slice scores i e)
           (JS.math_max (JS.slice scores i e))).
Proof.
  intros Hi Hie He. rewrite slice_window by lia.
  set (w := take (Z.to_nat (e - i)) (drop (Z.to_nat i) scores)).
  assert (∀ (j : nat) x, w !! j = Some x ↔
            JS.get scores (i + Z.of_nat j) = Some x ∧ i + Z.of_nat j < e) as Hw.
  { intros j x. unfold w. rewrite lookup_take_Some, lookup_drop, get_Some.
    replace (Z.to_nat (i + Z.of_nat j)) with (Z.to_nat i + j)%nat by lia.
    split; [intros [? ?]|intros [[_ ?] ?]]; split_and!; (done || lia). }
  assert (length w = Z.to_nat (e - i)) as Hlen.
  { unfold w. rewrite length_take, length_drop. lia. }
  assert (w ≠ []) as Hne.
  { intros Hnil. rewrite Hnil in Hlen. simpl in Hlen. lia. }
  destruct (math_max_spec w Hne) as (m & -> & Hm & Hmax). simpl.
  destruct (indexOf_from_spec w m 0) as (j & x & -> & Hj & Hx & Hfirst).
  { exists m. split; [done | reflexivity]. }
  apply Hw in Hj as [Hj Hje]. split; [lia|].
  exists x. rewrite Z.add_0_l. split_and!; [done| |].
  - intros j' y Hj' Hy.
    assert (w !! Z.to_nat (j' - i) = Some y) as Hwy.
    { apply Hw. rewrite Z2Nat.id by lia.
      replace (i + (j' - i)) with j' by lia. split; [done | lia]. }
    apply list_elem_of_lookup_2, Hmax in Hwy. lra.
  - intros j' y Hj' Hy.
    assert (w !! Z.to_nat (j' - i) = Some y) as Hwy.
    { apply Hw. rewrite Z2Nat.id by lia.
      replace (i + (j' - i)) with j' by lia. split; [done | lia]. }
    assert (Z.to_nat (j' - i) < j)%nat as Hlt by lia.
    pose proof (Hfirst _ _ Hlt Hwy) as Hny.
    apply list_elem_of_lookup_2, Hmax in Hwy.
    destruct (Qlt_le_dec y x) as [|Hge]; [done|].
    destruct Hny. lra.
Qed.

(** From the start of window [k] on, the loop leaves after one round
    per remaining window, having picked in each. *)
Lemma batch_loop_windows fuel k i selected :
  (if decide (window_start bs buf k < n)
   then i = window_start bs buf k else n ≤ i) →
  n - window_start bs buf k ≤ Z.of_nat fuel →
  ∃ picks,
    batch_loop fuel scores bs buf i selected = Some (selected ++ picks) ∧
    (∀ (j : nat) p, picks !! j = Some p →
       window_pick scores (window_start bs buf (k + j))
         (window_end n bs buf (k + j)) p) ∧
    n ≤ window_start bs buf (k + length picks) ∧
    (∀ j : nat, (j < length picks)%nat → window_start bs buf (k + j) < n).
Proof.
  revert k i selected.
  induction fuel as [|fuel IH]; intros k i selected Hi Hfuel.
  - case_decide; [lia|]. exists []. simpl.
    destruct (Z.ltb_spec i n); [lia|].
    rewrite app_nil_r, Nat.add_0_r.
    split_and!; [done| |lia|simpl; lia].
    intros j p. by rewrite lookup_nil.
  - simpl. case_decide as Hk.
    + subst i. destruct (Z.ltb_spec (window_start bs buf k) n); [|lia].
      pose proof (window_start_nonneg bs buf Hbs Hbuf k) as Hk0.
      pose proof (window_start_S bs buf k) as HS.
      set (i := window_start bs buf k) in *.
      destruct (IH (S k) (Z.min (i + bs) n + buf)
                  (selected ++ [i + JS.indexOf (JS.slice scores i (Z.min (i + bs) n))
                     (JS.math_max (JS.slice scores i (Z.min (i + bs) n)))]))
        as (picks & -> & Hpicks & Hend & Hlt).
      { case_decide; lia. }
      { lia. }
      eexists (_ :: picks). split_and!.
      * by rewrite <-app_assoc.
      * intros [|j] p Hp; simplify_eq/=.
        -- rewrite Nat.add_0_r. apply batch_round_pick; lia.
        -- rewrite <-Nat.add_succ_comm. by apply Hpicks.
      * simpl. by rewrite <-Nat.add_succ_comm.
      * intros [|j] Hj; simpl in *.
        -- by rewrite Nat.add_0_r.
        -- rewrite <-Nat.add_succ_comm. apply Hlt. lia.
    + destruct (Z.ltb_spec i n); [lia|]. exists [].
      rewrite app_nil_r, Nat.add_0_r.
      split_and!; [done| |lia|simpl; lia].
      intros j p. by rewrite lookup_nil.
Qed.

(** The picks of the whole loop: one per window, in index order. *)
Lemma batch_loop_picks fuel :
  (length scores ≤ fuel)%nat →
  ∃ picks,
    batch_loop fuel scores bs buf 0 [] = Some picks ∧
    Z.of_nat (length picks) = window_count n bs buf ∧
    (∀ (k : nat) p, picks !! k = Some p →
       window_pick scores (window_start bs buf k) (window_end n bs buf k) p) ∧
    StronglySorted Z.lt picks.
Proof.
  intros Hfuel.
  destruct (batch_loop_windows fuel 0 0 []) as (picks & Hrun & Hpick & Hend & Hlt).
  { case_decide; [done | unfold window_start in *; lia]. }
  { unfold window_start. lia. }
  exists picks. simpl in *. split_and!; [done| |done|].
  - symmetry. apply ceil_div_spec; [lia|]. unfold window_start in *.
    destruct picks as [|p picks]; simpl in *; [lia|].
    specialize (Hlt (length picks) ltac:(lia)). lia.
  - apply StronglySorted_lookup_2. intros j k x y Hjk Hx Hy.
    apply Hpick in Hx as [Hx _], Hy as [Hy _].
    pose proof (window_start_mono bs buf Hbs Hbuf (S j) k ltac:(lia)).
    rewrite window_start_S in *. unfold window_end in *. lia.
Qed.
End batch_facts.

(** A loop that has left within [fuel] rounds returns the same array with
    any larger bound. *)
Lemma batch_loop_more_fuel fuel fuel' scores bs buf i selected l :
  (fuel ≤ fuel')%nat →
  batch_loop fuel scores bs buf i selected = Some l →
  batch_loop fuel' scores bs buf i selected = Some l.
Proof.
  revert fuel' i selected.
  induction fuel as [|fuel IH]; intros fuel' i selected Hle; simpl.
  - destruct (i <? Z.of_nat (length scores)) eqn:Hi; [done|].
    intros <-. destruct fuel'; simpl; by rewrite Hi.
  - destruct fuel' as [|fuel']; [lia|]. simpl.
    destruct (i <? Z.of_nat (length scores)); [|done].
    apply IH. lia.
Qed.

(** ** Threshold mode *)

Section select_threshold_facts.
Context (frames : list FrameData) (th : Q) (md : Z).

Local Abbreviation kept := (kept_frames frames th md).

Lemma kept_sublist_above : kept `sublist_of` above_threshold frames th.
Proof.
  unfold kept_frames. destruct (1 <? md); [apply distance_filter_sublist | done].
Qed.

Lemma kept_sublist : kept `sublist_of` with_index frames.
Proof. etrans; [apply kept_sublist_above | apply above_threshold_sublist]. Qed.

Lemma kept_sorted : StronglySorted Z.lt (idx <$> kept).
Proof. eapply idx_lt_fmap, sublist_with_index_sorted, kept_sublist. Qed.

Lemma kept_greedy :
  if 1 <? md
  then greedy_spaced md (idx <$> above_threshold frames th) (idx <$> kept)
  else idx <$> kept = idx <$> above_threshold frames th.
Proof.
  unfold kept_frames. destruct (1 <? md); [|done].
  eapply distance_filter_greedy, sublist_with_index_sorted.
  apply above_threshold_sublist.
Qed.

Lemma select_threshold_unlimited mf :
  JS.truthy mf && (default 0 mf <? Z.of_nat (length kept)) = false →
  select_threshold frames th md mf = idx <$> kept.
Proof.
  intros Hmf. unfold select_threshold. fold (kept_frames frames th md). rewrite Hmf.
  apply sort_ascending_sorted, kept_sorted.
Qed.

Lemma select_threshold_limited m :
  m ≠ 0 → m < Z.of_nat (length kept) →
  select_threshold frames th md (Some m) =
  JS.sort JS.ascending
    (idx <$> JS.slice (JS.sort (JS.descending (sharpness ∘ item)) kept) 0 m).
Proof.
  intros Hm Hlt. unfold select_threshold. fold (kept_frames frames th md). simpl.
  destruct (Z.eqb_spec m 0); [done|].
  destruct (Z.ltb_spec m (Z.of_nat (length kept))); [done | lia].
Qed.

(** With a limit that is unset or at least 1, the selection goes through
    the three steps. *)
Lemma select_threshold_stages mf :
  (∀ m, mf = Some m → 1 ≤ m) →
  threshold_stages (sharpness <$> frames) th md mf
    (select_threshold frames th md mf).
Proof.
  intros Hmf.
  exists (idx <$> above_threshold frames th), (idx <$> kept).
  split_and!; [apply above_threshold_candidates | apply kept_greedy |].
  rewrite length_fmap. destruct mf as [m|].
  - specialize (Hmf m eq_refl).
    destruct (Z.ltb_spec m (Z.of_nat (length kept))) as [Hlt|Hge].
    + rewrite select_threshold_limited by lia.
      pose proof (top_slice_top_by_score sharpness frames kept m
                    kept_sublist ltac:(lia)) as Htop.
      by rewrite Z.min_l in Htop by lia.
    + apply select_threshold_unlimited. simpl.
      destruct (Z.ltb_spec m (Z.of_nat (length kept))); [lia|].
      apply andb_false_r.
  - by apply select_threshold_unlimited.
Qed.

Lemma select_threshold_sorted mf :
  StronglySorted Z.lt (select_threshold frames th md mf).
Proof.
  unfold select_threshold. fold (kept_frames frames th md). destruct (_ && _).
  - apply top_slice_sorted. eapply sublist_with_index_sorted, kept_sublist.
  - rewrite sort_ascending_sorted; apply kept_sorted.
Qed.

(** Whatever the limit, only frames that pass the threshold are
    returned. *)
Lemma select_threshold_passes mf i :
  i ∈ select_threshold frames th md mf →
  passes_threshold (sharpness <$> frames) th i.
Proof.
  intros Hi.
  assert (∃ a, a ∈ kept ∧ idx a = i) as (a & Ha & <-).
  { revert Hi. unfold select_threshold. fold (kept_frames frames th md). destruct (_ && _).
    - apply top_slice_elem_of.
    - rewrite sort_elem_of, list_elem_of_fmap.
      intros (a & -> & Ha). by exists a. }
  apply (above_threshold_candidates frames th).
  apply list_elem_of_fmap. exists a. split; [done|].
  by apply (sublist_subseteq _ _ kept_sublist_above).
Qed.

(** A limit of zero is no limit. *)
Lemma select_threshold_zero :
  select_threshold frames th md (Some 0) = select_threshold frames th md None.
Proof. reflexivity. Qed.

(** Without a limit the result is empty only when no frame passes. *)
Lemma select_threshold_None_empty :
  select_threshold frames th md None = [] ↔
  ∀ i, ¬ passes_threshold (sharpness <$> frames) th i.
Proof.
  rewrite select_threshold_unlimited by done.
  pose proof (above_threshold_candidates frames th) as [_ Hpass].
  pose proof kept_greedy as Hk.
  assert (idx <$> kept = [] ↔ idx <$> above_threshold frames th = []) as ->.
  { destruct (1 <? md); [|by rewrite Hk].
    destruct Hk as (_ & Hhead & _).
    by rewrite <-!head_None, Hhead. }
  split.
  - intros Hnil i Hi%Hpass. rewrite Hnil in Hi. by apply elem_of_nil in Hi.
  - intros Hnone. destruct (idx <$> above_threshold frames th) as [|i l];
      [done|]. destruct (Hnone i). apply Hpass. by left.
Qed.
End select_threshold_facts.

Lemma getSelectedFrameIndices_threshold fuel st ar :
  analysisResult st = Some ar → selectionMode st = ModeThreshold →
  getSelectedFrameIndices fuel st =
  Some (select_threshold (frames ar) (threshold st) (minFrameDistance st)
          (maxFrames st)).
Proof. intros Har Hmode. unfold getSelectedFrameIndices. by rewrite Har, Hmode. Qed.

(** C1 (as amended).  In Threshold mode, with max_frames unset or at
    least 1, the selection is made in three steps: keep exactly the frames
    whose sharpness is >= the threshold, in index order; if min_distance > 1,
    keep greedily the candidates that lie at least min_distance past the
    last kept index (the first candidate is kept); if max_frames is below
    the number of candidates left, keep the max_frames candidates of
    highest score (earlier index first among equal scores), in ascending
    index order.  A max_frames of 0 is treated as unset: the selection is
    then made by the same steps without a limit.  For scores [1,5,2,8,3] and
    threshold 4 the selection is {1,3} with min_distance 1 and {1} with
    min_distance 3. *)
Theorem threshold_selection_stages :
  (∀ fuel st ar,
     analysisResult st = Some ar → selectionMode st = ModeThreshold →
     (∀ m, maxFrames st = Some m → 1 ≤ m) →
     ∃ result,
       getSelectedFrameIndices fuel st = Some result ∧
       threshold_stages (sharpness <$> frames ar) (threshold st)
         (minFrameDistance st) (maxFrames st) result) ∧
  (∀ fuel st ar,
     analysisResult st = Some ar → selectionMode st = ModeThreshold →
     maxFrames st = Some 0 →
     ∃ result,
       getSelectedFrameIndices fuel st = Some result ∧
       getSelectedFrameIndices fuel (setMaxFrames None st) = Some result ∧
       threshold_stages (sharpness <$> frames ar) (threshold st)
         (minFrameDistance st) None result) ∧
  getSelectedFrameIndices 0
    (threshold_state [1; 5; 2; 8; 3]%Q 4%Q 1 None) = Some [1; 3] ∧
  getSelectedFrameIndices 0
    (threshold_state [1; 5; 2; 8; 3]%Q 4%Q 3 None) = Some [1].
Proof.
  split_and!; [| |by vm_compute..].
  - intros fuel st ar Har Hmode Hmf. eexists. split.
    + by apply getSelectedFrameIndices_threshold.
    + by apply select_threshold_stages.
  - intros fuel st ar Har Hmode Hmf.
    rewrite !(getSelectedFrameIndices_threshold _ _ ar) by done.
    rewrite Hmf, select_threshold_zero. simpl.
    eexists. split_and!; [done|done|].
    by apply select_threshold_stages.
Qed.

Lemma threshold_selection_stages_witness :
  (∃ result,
     getSelectedFrameIndices 0
       (threshold_state [1; 5; 2; 8; 3]%Q 2%Q 1 (Some 2)) = Some result ∧
     threshold_stages [1; 5; 2; 8; 3]%Q 2%Q 1 (Some 2) result) ∧
  getSelectedFrameIndices 0
    (threshold_state [1; 5; 2; 8; 3]%Q 2%Q 1 (Some 2)) = Some [1; 3] ∧
  (∃ result,
     getSelectedFrameIndices 0
       (threshold_state [1; 5; 2; 8; 3]%Q 2%Q 3 (Some 0)) = Some result ∧
     getSelectedFrameIndices 0
       (setMaxFrames None (threshold_state [1; 5; 2; 8; 3]%Q 2%Q 3 (Some 0)))
     = Some result ∧
     threshold_stages [1; 5; 2; 8; 3]%Q 2%Q 3 None result) ∧
  getSelectedFrameIndices 0
    (threshold_state [1; 5; 2; 8; 3]%Q 2%Q 3 (Some 0)) = Some [1; 4].
Proof.
  split_and!.
  - apply (proj1 threshold_selection_stages 0%nat
             (threshold_state [1; 5; 2; 8; 3]%Q 2%Q 1 (Some 2))
             (result_of_scores [1; 5; 2; 8; 3]%Q) eq_refl eq_refl).
    intros m [= <-]. lia.
  - by vm_compute.
  - exact (proj1 (proj2 threshold_selection_stages) 0%nat
             (threshold_state [1; 5; 2; 8; 3]%Q 2%Q 3 (Some 0))
             (result_of_scores [1; 5; 2; 8; 3]%Q) eq_refl eq_refl eq_refl).
  - by vm_compute.
Defined.

(** C1 fails as stated: with max_frames set to 0 and two frames passing
    the threshold, the limit step is skipped and both are returned. *)
Lemma threshold_stages_fail_at_zero :
  ∃ result,
    getSelectedFrameIndices 0
      (threshold_state [5; 7]%Q 0%Q 1 (Some 0)) = Some result ∧
    ¬ threshold_stages [5; 7]%Q 0%Q 1 (Some 0) result.
Proof.
  exists [0; 1]. split; [by vm_compute|].
  intros (passing & kept & [_ Hpass] & Hkept & Hlimit).
  simpl in Hkept. subst kept.
  assert (0 ∈ passing) as Hin.
  { apply Hpass. exists 5%Q. split; [done|]. by vm_compute. }
  destruct passing as [|p passing]; [by apply elem_of_nil in Hin|].
  simpl in Hlimit. destruct Hlimit as (_ & Hlen & _). simpl in Hlen. lia.
Qed.

(** C3 (as amended).  In Threshold mode a max_frames of 0 is no limit: the
    selection is the one made with max_frames unset, and it is empty only
    when no frame reaches the threshold. *)
Theorem max_frames_zero_is_no_limit fuel st ar :
  analysisResult st = Some ar → selectionMode st = ModeThreshold →
  getSelectedFrameIndices fuel (setMaxFrames (Some 0) st) =
  getSelectedFrameIndices fuel (setMaxFrames None st) ∧
  ∃ result,
    getSelectedFrameIndices fuel (setMaxFrames (Some 0) st) = Some result ∧
    (result = [] ↔
     ∀ i, ¬ passes_threshold (sharpness <$> frames ar) (threshold st) i).
Proof.
  intros Har Hmode.
  rewrite !(getSelectedFrameIndices_threshold _ _ ar) by done. simpl.
  rewrite select_threshold_zero. split; [done|].
  eexists. split; [done|]. apply select_threshold_None_empty.
Qed.

Lemma max_frames_zero_is_no_limit_witness :
  getSelectedFrameIndices 0
    (setMaxFrames (Some 0) (threshold_state [1; 5; 2; 8; 3]%Q 4%Q 1 None)) =
  getSelectedFrameIndices 0
    (setMaxFrames None (threshold_state [1; 5; 2; 8; 3]%Q 4%Q 1 None)) ∧
  ∃ result,
    getSelectedFrameIndices 0
      (setMaxFrames (Some 0) (threshold_state [1; 5; 2; 8; 3]%Q 4%Q 1 None))
    = Some result ∧
    (result = [] ↔ ∀ i, ¬ passes_threshold [1; 5; 2; 8; 3]%Q 4%Q i).
Proof.
  exact (max_frames_zero_is_no_limit 0%nat
           (threshold_state [1; 5; 2; 8; 3]%Q 4%Q 1 None)
           (result_of_scores [1; 5; 2; 8; 3]%Q) eq_refl eq_refl).
Defined.

(** C3 fails as stated: one frame, threshold 0 and max_frames 0 select
    that frame. *)
Lemma max_frames_zero_selects_frame :
  ∃ st ar,
    analysisResult st = Some ar ∧ frames ar ≠ [] ∧
    selectionMode st = ModeThreshold ∧ maxFrames st = Some 0 ∧
    getSelectedFrameIndices 0 st = Some [0] ∧
    getSelectedFrameIndices 0 st ≠ Some [].
Proof.
  exists (threshold_state [5]%Q 0%Q 1 (Some 0)), (result_of_scores [5]%Q).
  split_and!; [done|done|done|done|by vm_compute|by vm_compute].
Qed.

(** C10.  In Threshold mode, for every threshold, min_distance and
    max_frames, a selection is returned and every index in it is the
    position of a frame whose sharpness is >= the threshold. *)
Theorem threshold_selection_passes fuel st ar :
  analysisResult st = Some ar → selectionMode st = ModeThreshold →
  ∃ result,
    getSelectedFrameIndices fuel st = Some result ∧
    ∀ i, i ∈ result →
      ∃ f, JS.get (frames ar) i = Some f ∧ (threshold st <= sharpness f)%Q.
Proof.
  intros Har Hmode. eexists. split.
  - by apply getSelectedFrameIndices_threshold.
  - intros i (s & Hs & Hth)%select_threshold_passes.
    rewrite get_fmap in Hs.
    destruct (JS.get (frames ar) i) as [f|]; simplify_eq/=. by exists f.
Qed.

Lemma threshold_selection_passes_witness :
  ∃ result,
    getSelectedFrameIndices 0
      (threshold_state [1; 5; 2; 8; 3]%Q 4%Q 3 (Some (-1))) = Some result ∧
    ∀ i, i ∈ result →
      ∃ f, JS.get (frames (result_of_scores [1; 5; 2; 8; 3]%Q)) i = Some f ∧
           (4 <= sharpness f)%Q.
Proof.
  exact (threshold_selection_passes 0%nat
           (threshold_state [1; 5; 2; 8; 3]%Q 4%Q 3 (Some (-1)))
           (result_of_scores [1; 5; 2; 8; 3]%Q) eq_refl eq_refl).
Defined.

(** ** Batch mode *)

Lemma getSelectedFrameIndices_batch fuel st ar :
  analysisResult st = Some ar → selectionMode st = ModeBatch →
  getSelectedFrameIndices fuel st =
  select_batch fuel (sharpness <$> frames ar)
    (batchSize (selectionSettings st)) (batchBuffer (selectionSettings st)).
Proof. intros Har Hmode. unfold getSelectedFrameIndices. by rewrite Har, Hmode. Qed.

Lemma sharpness_result_of_scores scores :
  sharpness <$> frames (result_of_scores scores) = scores.
Proof.
  simpl. rewrite fmap_imap.
  rewrite (imap_ext _ (const id)) by done.
  by rewrite imap_const, list_fmap_id.
Qed.

Section select_batch_facts.
Context (scores : list Q) (bs buf : Z).
Hypothesis Hbs : 1 ≤ bs.
Hypothesis Hbuf : 0 ≤ buf.

Local Abbreviation n := (Z.of_nat (length scores)).

(** The selection holds one pick per window, in index order. *)
Lemma select_batch_picks fuel :
  (length scores ≤ fuel)%nat →
  ∃ l,
    select_batch fuel scores bs buf = Some l ∧
    Z.of_nat (length l) = window_count n bs buf ∧
    (∀ (k : nat) p, l !! k = Some p →
       window_pick scores (window_start bs buf k) (window_end n bs buf k) p) ∧
    StronglySorted Z.lt l.
Proof.
  intros Hfuel.
  destruct (batch_loop_picks scores bs buf Hbs Hbuf fuel Hfuel)
    as (picks & Hrun & Hlen & Hpick & Hsorted).
  exists picks. unfold select_batch. rewrite Hrun.
  by rewrite sort_ascending_sorted.
Qed.

(** No window holds two selected indices, and consecutive selected
    indices are more than the buffer apart. *)
Lemma select_batch_spacing fuel :
  (length scores ≤ fuel)%nat →
  ∃ l,
    select_batch fuel scores bs buf = Some l ∧
    (∀ k : nat, Z.of_nat k < window_count n bs buf →
       ∃ p, l !! k = Some p ∧
            window_start bs buf k ≤ p < window_end n bs buf k ∧
            ∀ q, q ∈ l →
              window_start bs buf k ≤ q < window_end n bs buf k → q = p) ∧
    (∀ (k : nat) p q, l !! k = Some p → l !! S k = Some q → buf + 1 ≤ q - p).
Proof.
  intros Hfuel.
  destruct (select_batch_picks fuel Hfuel) as (l & Hrun & Hlen & Hpick & _).
  exists l. split_and!; [done| |].
  - intros k Hk.
    destruct (lookup_lt_is_Some_2 l k) as [p Hp]; [lia|].
    exists p. pose proof (Hpick k p Hp) as [Hrange _].
    split; [done|]. split; [done|].
    intros q [k' Hq]%list_elem_of_lookup Hqk.
    pose proof (Hpick k' q Hq) as [Hrange' _].
    destruct (lt_eq_lt_dec k k') as [[Hlt| ->]|Hlt].
    + pose proof (window_disjoint bs buf Hbs Hbuf n k k' Hlt). lia.
    + congruence.
    + pose proof (window_disjoint bs buf Hbs Hbuf n k' k Hlt). lia.
  - intros k p q Hp Hq.
    apply Hpick in Hp as [Hp _], Hq as [Hq _].
    rewrite window_start_S in Hq. unfold window_end in *. lia.
Qed.
End select_batch_facts.

(** C4.  In Batch mode with batch_size >= 2 and batch_buffer >= 0 the
    frames are cut into windows of batch_size frames whose starts advance
    by batch_size + batch_buffer (the last window may be shorter); the
    selection holds, in ascending order, one index per window: the earliest
    position of the window's maximal score. *)
Theorem batch_selection_windows fuel st ar :
  analysisResult st = Some ar → selectionMode st = ModeBatch →
  2 ≤ batchSize (selectionSettings st) →
  0 ≤ batchBuffer (selectionSettings st) →
  (length (frames ar) ≤ fuel)%nat →
  ∃ l,
    getSelectedFrameIndices fuel st = Some l ∧
    Z.of_nat (length l) =
      window_count (Z.of_nat (length (frames ar)))
        (batchSize (selectionSettings st)) (batchBuffer (selectionSettings st)) ∧
    (∀ (k : nat) p, l !! k = Some p →
       window_pick (sharpness <$> frames ar)
         (window_start (batchSize (selectionSettings st))
            (batchBuffer (selectionSettings st)) k)
         (window_end (Z.of_nat (length (frames ar)))
            (batchSize (selectionSettings st))
            (batchBuffer (selectionSettings st)) k) p) ∧
    StronglySorted Z.lt l.
Proof.
  intros Har Hmode Hbs Hbuf Hfuel.
  rewrite (getSelectedFrameIndices_batch _ _ ar) by done.
  rewrite <-(length_fmap sharpness (frames ar)) in *.
  apply select_batch_picks; [lia|done|done].
Qed.

Lemma batch_selection_windows_witness :
  ∃ l,
    getSelectedFrameIndices 5 (batch_state [1; 5; 2; 8; 3]%Q 2 1) = Some l ∧
    Z.of_nat (length l) = window_count 5 2 1 ∧
    (∀ (k : nat) p, l !! k = Some p →
       window_pick (sharpness <$> frames (result_of_scores [1; 5; 2; 8; 3]%Q))
         (window_start 2 1 k) (window_end 5 2 1 k) p) ∧
    StronglySorted Z.lt l.
Proof.
  apply (batch_selection_windows 5%nat (batch_state [1; 5; 2; 8; 3]%Q 2 1)
           (result_of_scores [1; 5; 2; 8; 3]%Q) eq_refl eq_refl);
    simpl; lia.
Defined.

(** C5 (as amended).  In Batch mode no window holds more than one selected
    index, and two consecutive selected indices are at least
    batch_buffer + 1 apart (with batch_buffer = 0 they can be adjacent).
    For batch_size 3 and buffer 1 over 10 frames the windows are [0-2],
    [4-6] and [8-9], and the selection is three picks, one per window, each
    the earliest maximum of its window. *)
Theorem batch_selection_spacing :
  (∀ fuel st ar,
     analysisResult st = Some ar → selectionMode st = ModeBatch →
     1 ≤ batchSize (selectionSettings st) →
     0 ≤ batchBuffer (selectionSettings st) →
     (length (frames ar) ≤ fuel)%nat →
     ∃ l,
       getSelectedFrameIndices fuel st = Some l ∧
       (∀ k : nat,
          Z.of_nat k < window_count (Z.of_nat (length (frames ar)))
                         (batchSize (selectionSettings st))
                         (batchBuffer (selectionSettings st)) →
          ∃ p, l !! k = Some p ∧
            window_start (batchSize (selectionSettings st))
              (batchBuffer (selectionSettings st)) k ≤ p
            < window_end (Z.of_nat (length (frames ar)))
                (batchSize (selectionSettings st))
                (batchBuffer (selectionSettings st)) k ∧
            ∀ q, q ∈ l →
              window_start (batchSize (selectionSettings st))
                (batchBuffer (selectionSettings st)) k ≤ q
              < window_end (Z.of_nat (length (frames ar)))
                  (batchSize (selectionSettings st))
                  (batchBuffer (selectionSettings st)) k →
              q = p) ∧
       (∀ (k : nat) p q, l !! k = Some p → l !! S k = Some q →
          batchBuffer (selectionSettings st) + 1 ≤ q - p)) ∧
  (∀ fuel scores,
     length scores = 10%nat → (10 ≤ fuel)%nat →
     ∃ p0 p1 p2,
       getSelectedFrameIndices fuel (batch_state scores 3 1) = Some [p0; p1; p2] ∧
       window_pick scores 0 3 p0 ∧
       window_pick scores 4 7 p1 ∧
       window_pick scores 8 10 p2).
Proof.
  split.
  - intros fuel st ar Har Hmode Hbs Hbuf Hfuel.
    rewrite (getSelectedFrameIndices_batch _ _ ar) by done.
    rewrite <-(length_fmap sharpness (frames ar)) in *.
    by apply select_batch_spacing.
  - intros fuel scores Hlen Hfuel.
    rewrite (getSelectedFrameIndices_batch _ _ (result_of_scores scores)) by done.
    rewrite sharpness_result_of_scores. simpl.
    destruct (select_batch_picks scores 3 1 ltac:(lia) ltac:(lia) fuel)
      as (l & -> & Hcount & Hpick & _); [lia|].
    rewrite Hlen in Hcount, Hpick. change (window_count _ 3 1) with 3 in Hcount.
    destruct l as [|p0 [|p1 [|p2 [|p3 l]]]]; simpl in Hcount; try lia.
    exists p0, p1, p2. split_and!; [done|..].
    + apply (Hpick 0%nat p0 eq_refl).
    + apply (Hpick 1%nat p1 eq_refl).
    + apply (Hpick 2%nat p2 eq_refl).
Qed.

Lemma batch_selection_spacing_witness :
  ∃ p0 p1 p2,
    getSelectedFrameIndices 10
      (batch_state [0; 0; 0; 0; 0; 0; 0; 9; 1; 0]%Q 3 1) = Some [p0; p1; p2] ∧
    window_pick [0; 0; 0; 0; 0; 0; 0; 9; 1; 0]%Q 0 3 p0 ∧
    window_pick [0; 0; 0; 0; 0; 0; 0; 9; 1; 0]%Q 4 7 p1 ∧
    window_pick [0; 0; 0; 0; 0; 0; 0; 9; 1; 0]%Q 8 10 p2.
Proof.
  apply (proj2 batch_selection_spacing 10%nat
           [0; 0; 0; 0; 0; 0; 0; 9; 1; 0]%Q); [reflexivity | lia].
Defined.

(** C5 fails as stated.  With batch_size 3 and buffer 0 the picks of two
    neighbouring windows are the adjacent indices 2 and 3; with batch_size
    3 and buffer 1 over 10 frames the third pick is taken among frames 8-9,
    so it is index 8 although frame 7 is the sharpest of frames 7-9. *)
Lemma batch_picks_adjacent_and_third_window :
  (getSelectedFrameIndices 6
     (batch_state [1; 2; 9; 9; 2; 1]%Q 3 0) = Some [2; 3] ∧ 3 - 2 < 3) ∧
  (getSelectedFrameIndices 10
     (batch_state [0; 0; 0; 0; 0; 0; 0; 9; 1; 0]%Q 3 1) = Some [0; 4; 8] ∧
   ¬ window_pick [0; 0; 0; 0; 0; 0; 0; 9; 1; 0]%Q 7 10 8).
Proof.
  split_and!; [by vm_compute | lia | by vm_compute |].
  intros (_ & sp & Hsp & _ & Hfirst).
  specialize (Hfirst 7 9%Q ltac:(lia) eq_refl).
  vm_compute in Hsp. simplify_eq. by vm_compute in Hfirst.
Qed.

(** ** BestN and TopPercentage modes *)

Lemma getSelectedFrameIndices_bestN fuel st ar :
  analysisResult st = Some ar → selectionMode st = ModeBestN →
  getSelectedFrameIndices fuel st =
  Some (select_bestN (sharpness <$> frames ar) (bestN (selectionSettings st))).
Proof. intros Har Hmode. unfold getSelectedFrameIndices. by rewrite Har, Hmode. Qed.

Lemma getSelectedFrameIndices_topPercentage fuel st ar :
  analysisResult st = Some ar → selectionMode st = ModeTopPercentage →
  getSelectedFrameIndices fuel st =
  Some (select_topPercentage (sharpness <$> frames ar)
          (topPercentage (selectionSettings st))).
Proof. intros Har Hmode. unfold getSelectedFrameIndices. by rewrite Har, Hmode. Qed.

(** C8.  In BestN mode with n >= 1 the selection holds, in ascending
    order, min(n, number of frames) indices, each of which outranks every
    index left out: its score is higher, or equal with a smaller index.
    If n is at least the number of frames, all indices are returned. *)
Theorem bestN_selection fuel st ar :
  analysisResult st = Some ar → selectionMode st = ModeBestN →
  1 ≤ bestN (selectionSettings st) →
  ∃ l,
    getSelectedFrameIndices fuel st = Some l ∧
    top_by_score (sharpness <$> frames ar)
      (Z.min (bestN (selectionSettings st)) (Z.of_nat (length (frames ar))))
      (seqZ 0 (Z.of_nat (length (frames ar)))) l ∧
    (Z.of_nat (length (frames ar)) ≤ bestN (selectionSettings st) →
     l = seqZ 0 (Z.of_nat (length (frames ar)))).
Proof.
  intros Har Hmode Hn. eexists. split_and!.
  - by apply getSelectedFrameIndices_bestN.
  - rewrite <-(length_fmap sharpness (frames ar)).
    apply select_bestN_top. lia.
  - intros Hall. rewrite <-(length_fmap sharpness (frames ar)) in *.
    by apply select_bestN_all.
Qed.

Lemma bestN_selection_witness :
  ∃ l,
    getSelectedFrameIndices 0 (bestN_state [1; 5; 2; 5; 3]%Q 2) = Some l ∧
    top_by_score (sharpness <$> frames (result_of_scores [1; 5; 2; 5; 3]%Q))
      (Z.min 2 5) (seqZ 0 5) l ∧
    (5 ≤ 2 → l = seqZ 0 5).
Proof.
  apply (bestN_selection 0%nat (bestN_state [1; 5; 2; 5; 3]%Q 2)
           (result_of_scores [1; 5; 2; 5; 3]%Q) eq_refl eq_refl).
  simpl. lia.
Defined.

(** C7.  In TopPercentage mode with a percentage in 1..100 the selection
    is the BestN selection for n = ceil(total * percentage / 100); it has
    exactly n indices, and n does not exceed the number of frames. *)
Theorem topPercentage_is_bestN fuel st ar :
  analysisResult st = Some ar → selectionMode st = ModeTopPercentage →
  1 ≤ topPercentage (selectionSettings st) ≤ 100 →
  ∃ count,
    (100 * (count - 1)
       < Z.of_nat (length (frames ar)) * topPercentage (selectionSettings st)
       ≤ 100 * count) ∧
    getSelectedFrameIndices fuel st =
      getSelectedFrameIndices fuel (as_bestN count st) ∧
    count ≤ Z.of_nat (length (frames ar)) ∧
    ∃ l, getSelectedFrameIndices fuel st = Some l ∧ Z.of_nat (length l) = count.
Proof.
  intros Har Hmode Hpct.
  set (total := Z.of_nat (length (frames ar))).
  set (pct := topPercentage (selectionSettings st)) in *.
  exists (JS.ceil_div (total * pct) 100).
  pose proof (proj1 (ceil_div_spec (total * pct) 100 _ ltac:(lia)) eq_refl)
    as Hceil.
  assert (0 ≤ total) by (unfold total; lia).
  assert (0 ≤ JS.ceil_div (total * pct) 100 ≤ total) as Hcount by nia.
  rewrite (getSelectedFrameIndices_topPercentage _ _ ar) by done.
  rewrite (getSelectedFrameIndices_bestN _ (as_bestN _ st) ar) by done.
  rewrite select_topPercentage_bestN. simpl. fold pct.
  rewrite length_fmap. fold total.
  split_and!; [lia|lia|done|lia|]. eexists. split; [done|].
  pose proof (select_bestN_top (sharpness <$> frames ar)
                (JS.ceil_div (total * pct) 100) ltac:(lia)) as (_ & Hlen & _).
  rewrite Hlen, length_fmap. fold total. lia.
Qed.

Lemma topPercentage_is_bestN_witness :
  ∃ count,
    (100 * (count - 1) < 5 * 30 ≤ 100 * count) ∧
    getSelectedFrameIndices 0 (topPercentage_state [1; 5; 2; 5; 3]%Q 30) =
      getSelectedFrameIndices 0
        (as_bestN count (topPercentage_state [1; 5; 2; 5; 3]%Q 30)) ∧
    count ≤ 5 ∧
    ∃ l, getSelectedFrameIndices 0 (topPercentage_state [1; 5; 2; 5; 3]%Q 30)
         = Some l ∧ Z.of_nat (length l) = count.
Proof.
  apply (topPercentage_is_bestN 0%nat (topPercentage_state [1; 5; 2; 5; 3]%Q 30)
           (result_of_scores [1; 5; 2; 5; 3]%Q) eq_refl eq_refl).
  simpl. lia.
Defined.

(** ** Manual mode *)

Lemma select_manual_sorted (s : gset Z) : StronglySorted Z.lt (select_manual s).
Proof. apply sort_ascending_NoDup, NoDup_elements. Qed.

Lemma elem_of_select_manual (s : gset Z) i : i ∈ select_manual s ↔ i ∈ s.
Proof. unfold select_manual. by rewrite sort_elem_of, elem_of_elements. Qed.

Lemma getSelectedFrameIndices_manual fuel st ar :
  analysisResult st = Some ar → selectionMode st = ModeManual →
  getSelectedFrameIndices fuel st =
  Some (select_manual (manuallySelectedFrames st)).
Proof. intros Har Hmode. unfold getSelectedFrameIndices. by rewrite Har, Hmode. Qed.

(** C9.  In Manual mode the selection is the caller's set of indices in
    ascending order, each once, and no index is checked against the
    analysis result: an index of the set that is at or beyond the number
    of frames is returned, and its lookup in [exportFrames] is undefined.
    Such a state exists. *)
Theorem manual_selection_unvalidated :
  (∀ fuel st ar,
     analysisResult st = Some ar → selectionMode st = ModeManual →
     ∃ l,
       getSelectedFrameIndices fuel st = Some l ∧
       StronglySorted Z.lt l ∧
       (∀ i, i ∈ l ↔ i ∈ manuallySelectedFrames st) ∧
       ∀ i, i ∈ manuallySelectedFrames st →
         Z.of_nat (length (frames ar)) ≤ i →
         i ∈ l ∧
         ∃ fs, customResult_frames fuel st = Some fs ∧ None ∈ fs) ∧
  (∃ st ar i,
     analysisResult st = Some ar ∧ selectionMode st = ModeManual ∧
     frames ar ≠ [] ∧
     i ∈ manuallySelectedFrames st ∧ Z.of_nat (length (frames ar)) ≤ i).
Proof.
  split.
  - intros fuel st ar Har Hmode.
    exists (select_manual (manuallySelectedFrames st)).
    pose proof (getSelectedFrameIndices_manual fuel st ar Har Hmode) as Hsel.
    split_and!; [done|apply select_manual_sorted|apply elem_of_select_manual|].
    intros i Hi Hout. split; [by apply elem_of_select_manual|].
    unfold customResult_frames. rewrite Har, Hsel. eexists. split; [done|].
    apply list_elem_of_fmap. exists i. split; [|by apply elem_of_select_manual].
    symmetry. apply eq_None_not_Some. rewrite get_is_Some. lia.
  - exists (manual_state [1; 5]%Q [7]), (result_of_scores [1; 5]%Q), 7.
    split_and!; [done|done|done| |simpl; lia].
    by vm_compute.
Qed.

Lemma manual_selection_unvalidated_witness :
  ∃ l,
    getSelectedFrameIndices 0 (manual_state [1; 5]%Q [7; 0]) = Some l ∧
    StronglySorted Z.lt l ∧
    (∀ i, i ∈ l ↔ i ∈ manuallySelectedFrames (manual_state [1; 5]%Q [7; 0])) ∧
    ∀ i, i ∈ manuallySelectedFrames (manual_state [1; 5]%Q [7; 0]) →
      Z.of_nat (length (frames (result_of_scores [1; 5]%Q))) ≤ i →
      i ∈ l ∧
      ∃ fs, customResult_frames 0 (manual_state [1; 5]%Q [7; 0]) = Some fs ∧
            None ∈ fs.
Proof.
  exact (proj1 manual_selection_unvalidated 0%nat
           (manual_state [1; 5]%Q [7; 0])
           (result_of_scores [1; 5]%Q) eq_refl eq_refl).
Defined.

(** ** All modes *)

(** C2.  For each of the five policies the selection is returned and is
    strictly increasing, hence without duplicates.  Batch mode is taken
    with batch_size >= 1 and batch_buffer >= 0, and the loop with one
    round per frame at its disposal. *)
Theorem selection_strictly_increasing fuel st :
  (∀ ar, analysisResult st = Some ar → selectionMode st = ModeBatch →
     1 ≤ batchSize (selectionSettings st) ∧
     0 ≤ batchBuffer (selectionSettings st) ∧
     (length (frames ar) ≤ fuel)%nat) →
  ∃ l, getSelectedFrameIndices fuel st = Some l ∧
       StronglySorted Z.lt l ∧ NoDup l.
Proof.
  intros Hbatch.
  cut (∃ l, getSelectedFrameIndices fuel st = Some l ∧ StronglySorted Z.lt l).
  { intros (l & Hl & Hs). exists l. by eauto using StronglySorted_lt_NoDup. }
  destruct (analysisResult st) as [ar|] eqn:Har.
  2:{ exists []. unfold getSelectedFrameIndices. rewrite Har.
      split; [done | constructor]. }
  destruct (selectionMode st) eqn:Hmode.
  - rewrite (getSelectedFrameIndices_threshold _ _ ar) by done.
    eexists. split; [done|]. apply select_threshold_sorted.
  - destruct (Hbatch ar eq_refl eq_refl) as (Hbs & Hbuf & Hfuel).
    rewrite (getSelectedFrameIndices_batch _ _ ar) by done.
    destruct (select_batch_picks (sharpness <$> frames ar) _ _ Hbs Hbuf fuel)
      as (l & Hl & _ & _ & Hs); [by rewrite length_fmap|].
    by exists l.
  - rewrite (getSelectedFrameIndices_bestN _ _ ar) by done.
    eexists. split; [done|]. apply select_bestN_sorted.
  - rewrite (getSelectedFrameIndices_topPercentage _ _ ar) by done.
    eexists. split; [done|]. rewrite select_topPercentage_bestN.
    apply select_bestN_sorted.
  - rewrite (getSelectedFrameIndices_manual _ _ ar) by done.
    eexists. split; [done|]. apply select_manual_sorted.
Qed.

Lemma selection_strictly_increasing_witness :
  ∃ l, getSelectedFrameIndices 5 (batch_state [1; 5; 2; 8; 3]%Q 2 0) = Some l ∧
       StronglySorted Z.lt l ∧ NoDup l.
Proof.
  apply (selection_strictly_increasing 5%nat
           (batch_state [1; 5; 2; 8; 3]%Q 2 0)).
  intros ar [= <-] _. simpl. lia.
Defined.

(** C6 (as amended).  On an analysis result without frames the selection
    is returned for every policy and all parameters; it is empty for
    Threshold, Batch, BestN and TopPercentage, and in Manual mode it is
    the caller's set of indices, empty only when that set is. *)
Theorem empty_analysis_selection fuel st ar :
  analysisResult st = Some ar → frames ar = [] →
  ∃ l,
    getSelectedFrameIndices fuel st = Some l ∧
    (selectionMode st ≠ ModeManual → l = []) ∧
    (selectionMode st = ModeManual →
     StronglySorted Z.lt l ∧ ∀ i, i ∈ l ↔ i ∈ manuallySelectedFrames st).
Proof.
  intros Har Hnil. destruct (selectionMode st) eqn:Hmode.
  - rewrite (getSelectedFrameIndices_threshold _ _ ar) by done.
    eexists. split_and!; [done| |done]. intros _.
    destruct (select_threshold _ _ _ _) as [|i l] eqn:Hsel; [done|].
    assert (i ∈ select_threshold (frames ar) (threshold st)
                  (minFrameDistance st) (maxFrames st)) as Hi
      by (rewrite Hsel; by left).
    apply select_threshold_passes in Hi as (s & Hs & _).
    rewrite Hnil in Hs. unfold JS.get in Hs. by destruct (i <? 0).
  - rewrite (getSelectedFrameIndices_batch _ _ ar) by done. rewrite Hnil.
    exists []. split_and!; [by destruct fuel|done|done].
  - rewrite (getSelectedFrameIndices_bestN _ _ ar) by done.
    eexists. split_and!; [done| |done]. intros _.
    rewrite Hnil. apply length_zero_iff_nil, Nat.le_0_r.
    apply (select_bestN_length_le []).
  - rewrite (getSelectedFrameIndices_topPercentage _ _ ar) by done.
    eexists. split_and!; [done| |done]. intros _.
    rewrite select_topPercentage_bestN, Hnil.
    apply length_zero_iff_nil, Nat.le_0_r.
    apply (select_bestN_length_le []).
  - rewrite (getSelectedFrameIndices_manual _ _ ar) by done.
    eexists. split_and!; [done|done|]. intros _.
    split; [apply select_manual_sorted | apply elem_of_select_manual].
Qed.

Lemma empty_analysis_selection_witness :
  ∃ l,
    getSelectedFrameIndices 0 (batch_state [] (-2) (-3)) = Some l ∧
    (selectionMode (batch_state [] (-2) (-3)) ≠ ModeManual → l = []) ∧
    (selectionMode (batch_state [] (-2) (-3)) = ModeManual →
     StronglySorted Z.lt l ∧
     ∀ i, i ∈ l ↔ i ∈ manuallySelectedFrames (batch_state [] (-2) (-3))).
Proof.
  exact (empty_analysis_selection 0%nat (batch_state [] (-2) (-3))
           (result_of_scores []) eq_refl eq_refl).
Defined.

(** C6 fails as stated: on an analysis result without frames, Manual mode
    with the set {7} returns the index 7. *)
Lemma empty_analysis_manual_selection :
  ∃ st ar,
    analysisResult st = Some ar ∧ frames ar = [] ∧
    selectionMode st = ModeManual ∧
    getSelectedFrameIndices 0 st = Some [7] ∧
    getSelectedFrameIndices 0 st ≠ Some [].
Proof.
  exists (manual_state [] [7]), (result_of_scores []).
  split_and!; [done|done|done|by vm_compute|by vm_compute].
Qed.

(** ** Further properties of the component *)

(** *** Selected indices are positions of frames *)

Lemma NoDup_in_range_length (l : list Z) n :
  NoDup l → (∀ i, i ∈ l → 0 ≤ i < n) → Z.of_nat (length l) ≤ Z.max n 0.
Proof.
  intros Hnd Hrange.
  assert (l ⊆+ seqZ 0 n) as Hsub.
  { apply NoDup_submseteq; [done|]. intros i Hi. apply elem_of_seqZ.
    specialize (Hrange i Hi). lia. }
  apply submseteq_length in Hsub. rewrite length_seqZ in Hsub. lia.
Qed.

Lemma select_bestN_in_range scores n i :
  i ∈ select_bestN scores n → 0 ≤ i < Z.of_nat (length scores).
Proof.
  intros (a & Ha & <-)%top_slice_elem_of.
  apply elem_of_with_index in Ha. apply get_is_Some. by eexists.
Qed.

Lemma select_threshold_in_range frames th md mf i :
  i ∈ select_threshold frames th md mf → 0 ≤ i < Z.of_nat (length frames).
Proof.
  intros (s & Hs & _)%select_threshold_passes.
  rewrite <-(length_fmap sharpness). apply get_is_Some. by eexists.
Qed.

Lemma select_batch_in_range scores bs buf fuel :
  1 ≤ bs → 0 ≤ buf → (length scores ≤ fuel)%nat →
  ∃ l, select_batch fuel scores bs buf = Some l ∧
       StronglySorted Z.lt l ∧
       ∀ i, i ∈ l → 0 ≤ i < Z.of_nat (length scores).
Proof.
  intros Hbs Hbuf Hfuel.
  destruct (select_batch_picks scores bs buf Hbs Hbuf fuel Hfuel)
    as (l & Hl & _ & Hpick & Hs).
  exists l. split_and!; [done|done|].
  intros i [k Hk]%list_elem_of_lookup.
  apply Hpick in Hk as [Hrange _].
  pose proof (window_start_nonneg bs buf Hbs Hbuf k).
  unfold window_end in Hrange. lia.
Qed.

(** In the four score-driven modes the selection is strictly increasing
    and within the frames. *)
Lemma score_modes_selection fuel st ar :
  analysisResult st = Some ar → selectionMode st ≠ ModeManual →
  (selectionMode st = ModeBatch →
     1 ≤ batchSize (selectionSettings st) ∧
     0 ≤ batchBuffer (selectionSettings st) ∧
     (length (frames ar) ≤ fuel)%nat) →
  ∃ l, getSelectedFrameIndices fuel st = Some l ∧
       StronglySorted Z.lt l ∧
       ∀ i, i ∈ l → 0 ≤ i < Z.of_nat (length (frames ar)).
Proof.
  intros Har Hmanual Hbatch. destruct (selectionMode st) eqn:Hmode; [| | | |done].
  - rewrite (getSelectedFrameIndices_threshold _ _ ar) by done.
    eexists. split_and!; [done|apply select_threshold_sorted|].
    apply select_threshold_in_range.
  - destruct (Hbatch eq_refl) as (Hbs & Hbuf & Hfuel).
    rewrite (getSelectedFrameIndices_batch _ _ ar) by done.
    rewrite <-(length_fmap sharpness (frames ar)) in *.
    by apply select_batch_in_range.
  - rewrite (getSelectedFrameIndices_bestN _ _ ar) by done.
    eexists. split_and!; [done|apply select_bestN_sorted|].
    intros i Hi%select_bestN_in_range. by rewrite length_fmap in Hi.
  - rewrite (getSelectedFrameIndices_topPercentage _ _ ar) by done.
    rewrite select_topPercentage_bestN.
    eexists. split_and!; [done|apply select_bestN_sorted|].
    intros i Hi%select_bestN_in_range. by rewrite length_fmap in Hi.
Qed.

(** X1.  In Threshold, Batch, BestN and TopPercentage mode every selected
    index is the position of a frame, so [exportFrames] builds its custom
    result from exactly the frames at the selected positions and never
    from an undefined lookup. *)
Theorem export_frames_defined fuel st ar :
  analysisResult st = Some ar → selectionMode st ≠ ModeManual →
  (selectionMode st = ModeBatch →
     1 ≤ batchSize (selectionSettings st) ∧
     0 ≤ batchBuffer (selectionSettings st) ∧
     (length (frames ar) ≤ fuel)%nat) →
  ∃ l fs,
    getSelectedFrameIndices fuel st = Some l ∧
    customResult_frames fuel st = Some fs ∧
    Forall2 (λ i o, 0 ≤ i < Z.of_nat (length (frames ar)) ∧
                    is_Some o ∧ o = frames ar !! Z.to_nat i) l fs.
Proof.
  intros Har Hmanual Hbatch.
  destruct (score_modes_selection fuel st ar Har Hmanual Hbatch)
    as (l & Hl & _ & Hrange).
  exists l, ((λ i, JS.get (frames ar) i) <$> l). split_and!; [done| |].
  - unfold customResult_frames. by rewrite Har, Hl.
  - apply Forall2_fmap_r, Forall_Forall2_diag, Forall_forall.
    intros i Hi. specialize (Hrange i Hi). split_and!; [lia|lia| |].
    + apply get_is_Some. lia.
    + unfold JS.get. destruct (Z.ltb_spec i 0); [lia|done].
Qed.

Lemma export_frames_defined_witness :
  ∃ l fs,
    getSelectedFrameIndices 5 (batch_state [1; 5; 2; 8; 3]%Q 2 1) = Some l ∧
    customResult_frames 5 (batch_state [1; 5; 2; 8; 3]%Q 2 1) = Some fs ∧
    Forall2 (λ i o, 0 ≤ i < 5 ∧ is_Some o ∧
                    o = frames (result_of_scores [1; 5; 2; 8; 3]%Q)
                          !! Z.to_nat i) l fs.
Proof.
  apply (export_frames_defined 5%nat (batch_state [1; 5; 2; 8; 3]%Q 2 1)
           (result_of_scores [1; 5; 2; 8; 3]%Q) eq_refl); [done|].
  intros _. simpl. lia.
Defined.

(** X2.  In Threshold, Batch, BestN and TopPercentage mode the count that
    [getSelectedFrameCount] reports never exceeds the number of analysed
    frames. *)
Theorem selected_count_bounded fuel st ar :
  analysisResult st = Some ar → selectionMode st ≠ ModeManual →
  (selectionMode st = ModeBatch →
     1 ≤ batchSize (selectionSettings st) ∧
     0 ≤ batchBuffer (selectionSettings st) ∧
     (length (frames ar) ≤ fuel)%nat) →
  ∃ c, getSelectedFrameCount fuel st = Some c ∧
       0 ≤ c ≤ Z.of_nat (length (frames ar)).
Proof.
  intros Har Hmanual Hbatch.
  destruct (score_modes_selection fuel st ar Har Hmanual Hbatch)
    as (l & Hl & Hs & Hrange).
  exists (Z.of_nat (length l)). unfold getSelectedFrameCount. rewrite Hl.
  split; [done|].
  pose proof (NoDup_in_range_length l _ (StronglySorted_lt_NoDup l Hs) Hrange).
  lia.
Qed.

Lemma selected_count_bounded_witness :
  ∃ c, getSelectedFrameCount 0 (bestN_state [1; 5; 2; 8; 3]%Q 50) = Some c ∧
       0 ≤ c ≤ 5.
Proof.
  apply (selected_count_bounded 0%nat (bestN_state [1; 5; 2; 8; 3]%Q 50)
           (result_of_scores [1; 5; 2; 8; 3]%Q) eq_refl); done.
Defined.

(** *** Manual picks *)

Lemma elem_of_toggleManualSelection i (s : gset Z) j :
  j ∈ toggleManualSelection i s ↔ (j = i ∧ i ∉ s) ∨ (j ≠ i ∧ j ∈ s).
Proof.
  unfold toggleManualSelection. case_decide as Hi.
  - rewrite elem_of_difference, elem_of_singleton.
    split; [intros [? ?]; by right | intros [[_ ?]|[? ?]]; done].
  - rewrite elem_of_union, elem_of_singleton. split.
    + intros [?| ->]; [right; split; [by intros ->|done] | by left].
    + intros [[-> _]|[_ ?]]; [by right | by left].
Qed.

Lemma size_toggleManualSelection i (s : gset Z) :
  Z.of_nat (size (toggleManualSelection i s)) =
  if decide (i ∈ s) then Z.of_nat (size s) - 1 else Z.of_nat (size s) + 1.
Proof.
  unfold toggleManualSelection. case_decide as Hi.
  - rewrite size_difference by (by apply singleton_subseteq_l).
    rewrite size_singleton.
    assert (size s ≠ 0%nat); [|lia].
    intros Hz%size_empty_iff. rewrite Hz in Hi. by apply not_elem_of_empty in Hi.
  - rewrite size_union by (by apply disjoint_singleton_r).
    rewrite size_singleton. lia.
Qed.

Lemma length_select_manual (s : gset Z) : length (select_manual s) = size s.
Proof. unfold select_manual. by rewrite length_sort. Qed.

(** X3.  [toggleManualSelection] flips the membership of the clicked
    index and of no other, and toggling the same index twice restores the
    set. *)
Theorem toggle_flips_one_index i (s : gset Z) :
  (∀ j, j ∈ toggleManualSelection i s ↔ (j = i ∧ i ∉ s) ∨ (j ≠ i ∧ j ∈ s)) ∧
  toggleManualSelection i (toggleManualSelection i s) = s.
Proof.
  split; [apply elem_of_toggleManualSelection|].
  apply set_eq. intros j. rewrite !elem_of_toggleManualSelection.
  destruct (decide (j = i)) as [->|Hne]; destruct (decide (i ∈ s));
    intuition congruence.
Qed.

(** X4.  In Manual mode one toggle changes the reported count by exactly
    one: up when the index was not picked, down when it was; the new
    selection differs from the old one in that index only. *)
Theorem manual_toggle_count fuel st ar i :
  analysisResult st = Some ar → selectionMode st = ModeManual →
  ∃ c l',
    getSelectedFrameCount fuel st = Some c ∧
    getSelectedFrameIndices fuel
      (setManuallySelectedFrames
         (toggleManualSelection i (manuallySelectedFrames st)) st) = Some l' ∧
    getSelectedFrameCount fuel
      (setManuallySelectedFrames
         (toggleManualSelection i (manuallySelectedFrames st)) st)
    = Some (if decide (i ∈ manuallySelectedFrames st) then c - 1 else c + 1) ∧
    ∀ j, j ∈ l' ↔ (j = i ∧ i ∉ manuallySelectedFrames st) ∨
                  (j ≠ i ∧ j ∈ manuallySelectedFrames st).
Proof.
  intros Har Hmode.
  exists (Z.of_nat (size (manuallySelectedFrames st))).
  eexists. unfold getSelectedFrameCount.
  rewrite (getSelectedFrameIndices_manual _ _ ar) by done.
  rewrite (getSelectedFrameIndices_manual _ _ ar) by done. simpl.
  rewrite !length_select_manual, size_toggleManualSelection.
  split_and!; [done|done|done|].
  intros j. by rewrite elem_of_select_manual, elem_of_toggleManualSelection.
Qed.

Lemma manual_toggle_count_witness :
  ∃ c l',
    getSelectedFrameCount 0 (manual_state [1; 5; 2]%Q [2; 0]) = Some c ∧
    getSelectedFrameIndices 0
      (setManuallySelectedFrames
         (toggleManualSelection 2
            (manuallySelectedFrames (manual_state [1; 5; 2]%Q [2; 0])))
         (manual_state [1; 5; 2]%Q [2; 0])) = Some l' ∧
    getSelectedFrameCount 0
      (setManuallySelectedFrames
         (toggleManualSelection 2
            (manuallySelectedFrames (manual_state [1; 5; 2]%Q [2; 0])))
         (manual_state [1; 5; 2]%Q [2; 0]))
    = Some (if decide (2 ∈ manuallySelectedFrames
                             (manual_state [1; 5; 2]%Q [2; 0]))
            then c - 1 else c + 1) ∧
    ∀ j, j ∈ l' ↔
         (j = 2 ∧ 2 ∉ manuallySelectedFrames (manual_state [1; 5; 2]%Q [2; 0])) ∨
         (j ≠ 2 ∧ j ∈ manuallySelectedFrames (manual_state [1; 5; 2]%Q [2; 0])).
Proof.
  exact (manual_toggle_count 0%nat (manual_state [1; 5; 2]%Q [2; 0])
           (result_of_scores [1; 5; 2]%Q) 2 eq_refl eq_refl).
Defined.

(** *** The batch loop on settings outside its domain *)

Lemma batch_loop_stuck fuel scores bs buf i selected :
  scores ≠ [] → bs + buf ≤ 0 → i ≤ 0 →
  batch_loop fuel scores bs buf i selected = None.
Proof.
  intros Hne Hstep. revert i selected.
  assert (0 < Z.of_nat (length scores)) as Hlen.
  { destruct scores; [done | simpl; lia]. }
  induction fuel as [|fuel IH]; intros i selected Hi; simpl;
    destruct (Z.ltb_spec i (Z.of_nat (length scores))); try lia; [done|].
  apply IH. lia.
Qed.

(** X5.  In Batch mode with batch_size + batch_buffer <= 0 and at least
    one frame the loop never advances past its first window: no bound on
    the number of rounds lets the selection return. *)
Theorem batch_loop_never_leaves fuel st ar :
  analysisResult st = Some ar → frames ar ≠ [] →
  selectionMode st = ModeBatch →
  batchSize (selectionSettings st) + batchBuffer (selectionSettings st) ≤ 0 →
  getSelectedFrameIndices fuel st = None ∧
  getSelectedFrameCount fuel st = None.
Proof.
  intros Har Hne Hmode Hstep.
  assert (getSelectedFrameIndices fuel st = None) as Hnone.
  { rewrite (getSelectedFrameIndices_batch _ _ ar) by done.
    unfold select_batch. rewrite batch_loop_stuck; [done| |done|done].
    intros Hnil%fmap_nil_inv. done. }
  split; [done|]. unfold getSelectedFrameCount. by rewrite Hnone.
Qed.

Lemma batch_loop_never_leaves_witness :
  getSelectedFrameIndices 1000 (batch_state [1; 5; 2]%Q 2 (-2)) = None ∧
  getSelectedFrameCount 1000 (batch_state [1; 5; 2]%Q 2 (-2)) = None.
Proof.
  apply (batch_loop_never_leaves 1000%nat (batch_state [1; 5; 2]%Q 2 (-2))
           (result_of_scores [1; 5; 2]%Q) eq_refl); [done|done|].
  simpl. lia.
Defined.

(** *** BestN and TopPercentage at the edges *)

Lemma slice_from_0_negative {A} (l : list A) m :
  m < 0 → JS.slice l 0 m = JS.slice l 0 (Z.max (Z.of_nat (length l) + m) 0).
Proof.
  intros Hm. rewrite (slice_from_0 l (Z.max _ 0)) by lia.
  unfold JS.slice, JS.rel_index.
  replace (0 <? 0) with false by reflexivity.
  destruct (Z.ltb_spec m 0); [|lia].
  rewrite (Z.min_l 0) by lia. simpl. by rewrite drop_0, Z.sub_0_r.
Qed.

Lemma select_bestN_negative scores n :
  n < 0 →
  select_bestN scores n =
  select_bestN scores (Z.max (Z.of_nat (length scores) + n) 0).
Proof.
  intros Hn. unfold select_bestN.
  rewrite (slice_from_0_negative _ n Hn).
  by rewrite length_sort, length_with_index.
Qed.

(** X6.  In BestN mode a negative n counts from the other end: the
    selection is the one for n' = max(total + n, 0), that is, all frames
    but the |n| lowest-ranked; it has n' indices, each of which outranks
    every index left out. *)
Theorem bestN_negative_count fuel st ar :
  analysisResult st = Some ar → selectionMode st = ModeBestN →
  bestN (selectionSettings st) < 0 →
  ∃ l,
    getSelectedFrameIndices fuel st = Some l ∧
    getSelectedFrameIndices fuel
      (as_bestN (Z.max (Z.of_nat (length (frames ar))
                        + bestN (selectionSettings st)) 0) st) = Some l ∧
    top_by_score (sharpness <$> frames ar)
      (Z.max (Z.of_nat (length (frames ar)) + bestN (selectionSettings st)) 0)
      (seqZ 0 (Z.of_nat (length (frames ar)))) l.
Proof.
  intros Har Hmode Hn.
  pose proof (select_bestN_negative (sharpness <$> frames ar) _ Hn) as Hneg.
  rewrite length_fmap in Hneg.
  exists (select_bestN (sharpness <$> frames ar) (bestN (selectionSettings st))).
  split; [by apply getSelectedFrameIndices_bestN|]. split.
  - rewrite (getSelectedFrameIndices_bestN _ (as_bestN _ st) ar) by done.
    simpl. by rewrite Hneg.
  - rewrite Hneg.
    pose proof (select_bestN_top (sharpness <$> frames ar)
                  (Z.max (Z.of_nat (length (frames ar))
                          + bestN (selectionSettings st)) 0) ltac:(lia)) as Htop.
    rewrite length_fmap in Htop. by rewrite Z.min_l in Htop by lia.
Qed.

Lemma bestN_negative_count_witness :
  ∃ l,
    getSelectedFrameIndices 0 (bestN_state [1; 5; 2; 8; 3]%Q (-2)) = Some l ∧
    getSelectedFrameIndices 0
      (as_bestN (Z.max (5 + -2) 0) (bestN_state [1; 5; 2; 8; 3]%Q (-2)))
    = Some l ∧
    top_by_score (sharpness <$> frames (result_of_scores [1; 5; 2; 8; 3]%Q))
      (Z.max (5 + -2) 0) (seqZ 0 5) l.
Proof.
  apply (bestN_negative_count 0%nat (bestN_state [1; 5; 2; 8; 3]%Q (-2))
           (result_of_scores [1; 5; 2; 8; 3]%Q) eq_refl eq_refl).
  simpl. lia.
Defined.

(** X7.  In TopPercentage mode with a percentage in 1..100 and at least
    one frame, at least one frame is selected; with 100 percent the
    selection is every frame. *)
Theorem topPercentage_never_empty fuel st ar :
  analysisResult st = Some ar → selectionMode st = ModeTopPercentage →
  frames ar ≠ [] →
  1 ≤ topPercentage (selectionSettings st) ≤ 100 →
  ∃ l,
    getSelectedFrameIndices fuel st = Some l ∧ l ≠ [] ∧
    (topPercentage (selectionSettings st) = 100 →
     l = seqZ 0 (Z.of_nat (length (frames ar)))).
Proof.
  intros Har Hmode Hne Hpct.
  rewrite (getSelectedFrameIndices_topPercentage _ _ ar) by done.
  rewrite select_topPercentage_bestN, length_fmap.
  set (total := Z.of_nat (length (frames ar))).
  set (pct := topPercentage (selectionSettings st)) in *.
  assert (1 ≤ total) as Htotal.
  { unfold total. destruct (frames ar); [done | simpl; lia]. }
  pose proof (proj1 (ceil_div_spec (total * pct) 100 _ ltac:(lia)) eq_refl)
    as Hceil.
  eexists. split_and!; [done| |].
  - intros Hnil.
    pose proof (select_bestN_top (sharpness <$> frames ar)
                  (JS.ceil_div (total * pct) 100) ltac:(nia)) as (_ & Hlen & _).
    rewrite Hnil, length_fmap in Hlen. fold total in Hlen. simpl in Hlen. nia.
  - intros Hall. unfold total.
    rewrite <-(length_fmap sharpness (frames ar)) at 2.
    apply select_bestN_all. rewrite length_fmap. fold total. nia.
Qed.

Lemma topPercentage_never_empty_witness :
  ∃ l,
    getSelectedFrameIndices 0 (topPercentage_state [1; 5; 2; 8; 3]%Q 1) = Some l ∧
    l ≠ [] ∧
    (topPercentage
       (selectionSettings (topPercentage_state [1; 5; 2; 8; 3]%Q 1)) = 100 →
     l = seqZ 0 5).
Proof.
  apply (topPercentage_never_empty 0%nat (topPercentage_state [1; 5; 2; 8; 3]%Q 1)
           (result_of_scores [1; 5; 2; 8; 3]%Q) eq_refl eq_refl); [done|].
  simpl. lia.
Defined.

(** *** The distance step keeps as many frames as possible *)

Section greedy_facts.
Context {A : Type} (md : Z).
Implicit Types (l : list (Indexed A)) (o : option Z).

Local Abbreviation kept_count o l := (length (distance_filter md o l)).

Lemma last_le_skip o1 o2 (x : Indexed A) :
  last_le o1 o2 →
  match o1 with None => true | Some p => md <=? idx x - p end = false →
  match o2 with None => true | Some p => md <=? idx x - p end = false.
Proof.
  destruct o1 as [p1|], o2 as [p2|]; simpl; try done.
  rewrite !Z.leb_gt. lia.
Qed.

(** A scan that starts no later keeps at least as many, and the start
    matters by at most one. *)
Lemma kept_count_start l :
  StronglySorted idx_lt l →
  (∀ o1 o2, last_le o1 o2 → (kept_count o2 l ≤ kept_count o1 l)%nat) ∧
  (∀ o o', (∀ p, o' = Some p → Forall (λ x, p < idx x) l) →
           (kept_count o l ≤ 1 + kept_count o' l)%nat).
Proof.
  induction 1 as [|h t Ht [IHM IHA] Hh]; [by split; intros; simpl; lia|].
  assert (∀ p, Some (idx h) = Some p → Forall (λ x, p < idx x) t) as Hbefore.
  { by intros p [= <-]. }
  split.
  - intros o1 o2 Hle. simpl.
    destruct (match o1 with None => true | Some p => md <=? idx h - p end)
      eqn:H1.
    + destruct (match o2 with None => true | Some p => md <=? idx h - p end);
        simpl; [lia|].
      specialize (IHA o2 (Some (idx h)) Hbefore). lia.
    + rewrite (last_le_skip o1 o2 h Hle H1). by apply IHM.
  - intros o o' Ho'. simpl.
    assert (∀ p, o' = Some p → Forall (λ x, p < idx x) t) as Ho't.
    { intros p Hp. specialize (Ho' p Hp). by apply Forall_cons in Ho' as [_ ?]. }
    destruct (match o with None => true | Some p => md <=? idx h - p end),
      (match o' with None => true | Some p => md <=? idx h - p end) eqn:H2;
      simpl.
    + lia.
    + destruct o' as [p|]; [|done].
      assert (last_le (Some p) (Some (idx h))) as Hle.
      { specialize (Ho' p eq_refl). apply Forall_cons in Ho' as [? _].
        simpl. lia. }
      specialize (IHM _ _ Hle). lia.
    + specialize (IHA o (Some (idx h)) Hbefore). lia.
    + specialize (IHA o o' Ho't). lia.
Qed.

(** Fewer candidates never give more kept frames. *)
Lemma kept_count_sublist l2 l1 :
  l2 `sublist_of` l1 → StronglySorted idx_lt l1 →
  ∀ o1 o2, last_le o1 o2 → (kept_count o2 l2 ≤ kept_count o1 l1)%nat.
Proof.
  induction 1 as [|x t2 t1 Hsub IH|x l2 t1 Hsub IH]; intros Hs o1 o2 Hle.
  - simpl. lia.
  - apply StronglySorted_inv in Hs as [Hs Hx].
    assert (StronglySorted idx_lt t2) as Hs2
      by (by eapply StronglySorted_sublist).
    assert (∀ p, Some (idx x) = Some p → Forall (λ y, p < idx y) t2) as Hbefore.
    { intros p [= <-]. rewrite Forall_forall in Hx |- *. intros y Hy.
      by apply Hx, (sublist_subseteq _ _ Hsub). }
    simpl.
    destruct (match o1 with None => true | Some p => md <=? idx x - p end)
      eqn:H1.
    + destruct (match o2 with None => true | Some p => md <=? idx x - p end);
        simpl.
      * specialize (IH Hs (Some (idx x)) (Some (idx x)) ltac:(simpl; lia)). lia.
      * pose proof (proj2 (kept_count_start t2 Hs2) o2 (Some (idx x)) Hbefore).
        specialize (IH Hs (Some (idx x)) (Some (idx x)) ltac:(simpl; lia)). lia.
    + rewrite (last_le_skip o1 o2 x Hle H1). by apply IH.
  - apply StronglySorted_inv in Hs as [Hs Hx].
    assert (StronglySorted idx_lt l2) as Hs2
      by (by eapply StronglySorted_sublist).
    assert (∀ p, Some (idx x) = Some p → Forall (λ y, p < idx y) l2) as Hbefore.
    { intros p [= <-]. rewrite Forall_forall in Hx |- *. intros y Hy.
      by apply Hx, (sublist_subseteq _ _ Hsub). }
    simpl.
    destruct (match o1 with None => true | Some p => md <=? idx x - p end).
    + pose proof (proj2 (kept_count_start l2 Hs2) o2 (Some (idx x)) Hbefore).
      specialize (IH Hs (Some (idx x)) (Some (idx x)) ltac:(simpl; lia)).
      simpl. lia.
    + by apply IH.
Qed.

(** A list that already keeps the distance is kept whole. *)
Lemma distance_filter_spaced o l :
  spaced md (idx <$> l) →
  (∀ p x, o = Some p → head l = Some x → md ≤ idx x - p) →
  distance_filter md o l = l.
Proof.
  revert o. induction l as [|x l IH]; intros o Hsp Ho; simpl; [done|].
  assert (match o with None => true | Some p => md <=? idx x - p end = true)
    as ->.
  { destruct o as [p|]; [|done]. apply Z.leb_le. by apply Ho. }
  f_equal. apply IH.
  - intros k a b Ha Hb. by apply (Hsp (S k)).
  - intros p y [= <-] Hy. destruct l as [|z l]; simplify_eq/=.
    by apply (Hsp 0%nat).
Qed.

(** The kept frames keep the distance. *)
Lemma distance_filter_is_spaced o l :
  spaced md (idx <$> distance_filter md o l) ∧
  ∀ p x, o = Some p → head (distance_filter md o l) = Some x →
         md ≤ idx x - p.
Proof.
  revert o. induction l as [|x l IH]; intros o; simpl.
  { split; [intros k a b; by rewrite lookup_nil | done]. }
  destruct (match o with None => true | Some p => md <=? idx x - p end) eqn:Hk.
  - destruct (IH (Some (idx x))) as [Hsp Hhead]. split.
    + intros [|k] a b Ha Hb; simplify_eq/=; [|by apply (Hsp k)].
      rewrite list_lookup_fmap in Hb.
      destruct (distance_filter md (Some (idx x)) l) as [|y r] eqn:Hr;
        simplify_eq/=.
      by apply (Hhead (idx x) y).
    + intros p y -> [= <-]. by apply Z.leb_le.
  - apply IH.
Qed.
End greedy_facts.

Lemma above_threshold_mono frames (th1 th2 : Q) :
  (th1 <= th2)%Q →
  above_threshold frames th2 `sublist_of` above_threshold frames th1.
Proof.
  intros Hth. unfold above_threshold. generalize (with_index frames).
  intros l. induction l as [|a l IH]; simpl; [done|].
  destruct (Qle_bool th2 (sharpness (item a))) eqn:H2.
  - assert (Qle_bool th1 (sharpness (item a)) = true) as ->.
    { apply Qle_bool_iff. apply Qle_bool_iff in H2. lra. }
    by constructor.
  - destruct (Qle_bool th1 (sharpness (item a))); [by constructor | done].
Qed.

Lemma length_slice_from_0 {A} (l : list A) m :
  length (JS.slice l 0 m) = Z.to_nat (JS.rel_index (Z.of_nat (length l)) m).
Proof.
  unfold JS.slice. rewrite length_take, length_drop.
  unfold JS.rel_index. replace (0 <? 0) with false by reflexivity.
  destruct (Z.ltb_spec m 0); lia.
Qed.

(** The number of selected frames in terms of the number kept by the
    threshold and distance steps. *)
Lemma length_select_threshold frames th md mf :
  length (select_threshold frames th md mf) =
  if JS.truthy mf &&
     (default 0 mf <? Z.of_nat (length (kept_frames frames th md)))
  then Z.to_nat (JS.rel_index (Z.of_nat (length (kept_frames frames th md)))
                   (default 0 mf))
  else length (kept_frames frames th md).
Proof.
  unfold select_threshold. fold (kept_frames frames th md).
  destruct (_ && _).
  - by rewrite length_sort, length_fmap, length_slice_from_0, length_sort.
  - by rewrite length_sort, length_fmap.
Qed.

Lemma kept_frames_mono frames (th1 th2 : Q) md :
  (th1 <= th2)%Q →
  (length (kept_frames frames th2 md) ≤ length (kept_frames frames th1 md))%nat.
Proof.
  intros Hth. pose proof (above_threshold_mono frames th1 th2 Hth) as Hsub.
  unfold kept_frames. destruct (1 <? md).
  - apply kept_count_sublist; [done| |done].
    eapply sublist_with_index_sorted, above_threshold_sublist.
  - by apply sublist_length.
Qed.

(** X8.  In Threshold mode, whatever the minimum distance and the limit,
    raising the threshold never raises the number of selected frames. *)
Theorem threshold_count_monotone fuel st ar (th' : Q) :
  analysisResult st = Some ar → selectionMode st = ModeThreshold →
  (threshold st <= th')%Q →
  ∃ c c',
    getSelectedFrameCount fuel st = Some c ∧
    getSelectedFrameCount fuel (setThreshold th' st) = Some c' ∧
    c' ≤ c.
Proof.
  intros Har Hmode Hth. unfold getSelectedFrameCount.
  rewrite !(getSelectedFrameIndices_threshold _ _ ar) by done. simpl.
  eexists _, _. split_and!; [done|done|].
  rewrite !length_select_threshold.
  pose proof (kept_frames_mono (frames ar) _ _ (minFrameDistance st) Hth) as Hk.
  destruct (maxFrames st) as [m|]; simpl; [|lia].
  unfold JS.rel_index.
  destruct (Z.eqb_spec m 0); simpl; [lia|].
  repeat match goal with |- context [?a <? ?b] =>
    destruct (Z.ltb_spec a b) end; lia.
Qed.

Lemma threshold_count_monotone_witness :
  ∃ c c',
    getSelectedFrameCount 0
      (threshold_state [1; 5; 2; 8; 3]%Q 2%Q 2 (Some 2)) = Some c ∧
    getSelectedFrameCount 0
      (setThreshold 4%Q (threshold_state [1; 5; 2; 8; 3]%Q 2%Q 2 (Some 2)))
    = Some c' ∧
    c' ≤ c.
Proof.
  apply (threshold_count_monotone 0%nat
           (threshold_state [1; 5; 2; 8; 3]%Q 2%Q 2 (Some 2))
           (result_of_scores [1; 5; 2; 8; 3]%Q) 4%Q eq_refl eq_refl).
  by vm_compute.
Defined.

Lemma sorted_subseteq_sublist (s c : list Z) :
  StronglySorted Z.lt s → StronglySorted Z.lt c →
  (∀ i, i ∈ s → i ∈ c) → s `sublist_of` c.
Proof.
  intros Hs Hc. revert s Hs.
  induction Hc as [|x c Hc IH Hx]; intros s Hs Hsub.
  { destruct s as [|y s]; [done|].
    specialize (Hsub y ltac:(by left)). by apply elem_of_nil in Hsub. }
  destruct s as [|y s]; [apply sublist_nil_l|].
  apply StronglySorted_inv in Hs as [Hs Hy].
  rewrite Forall_forall in Hx, Hy.
  destruct (decide (y = x)) as [->|Hne].
  - apply sublist_skip, IH; [done|]. intros i Hi.
    specialize (Hsub i ltac:(by right)). specialize (Hy i Hi).
    apply elem_of_cons in Hsub as [->|?]; [lia|done].
  - apply sublist_cons, IH; [by constructor; [|apply Forall_forall]|].
    assert (x < y) as Hxy.
    { specialize (Hsub y ltac:(by left)).
      apply elem_of_cons in Hsub as [?|Hin]; [done|]. by apply Hx. }
    intros i Hi. specialize (Hsub i Hi).
    apply elem_of_cons in Hsub as [->|?]; [|done].
    apply elem_of_cons in Hi as [?|Hi]; [done|]. specialize (Hy x Hi). lia.
Qed.

Lemma sublist_fmap_inv {A B} (f : A → B) (l : list B) (k : list A) :
  l `sublist_of` f <$> k → ∃ k', k' `sublist_of` k ∧ l = f <$> k'.
Proof.
  revert l. induction k as [|x k IH]; intros l Hl.
  { apply sublist_nil_r in Hl as ->. by exists []. }
  apply sublist_cons_r in Hl as [Hl|(l' & -> & Hl)].
  - destruct (IH l Hl) as (k' & Hk' & ->). exists k'. by split; [constructor|].
  - destruct (IH l' Hl) as (k' & Hk' & ->). exists (x :: k').
    by split; [constructor|].
Qed.

(** X9.  In Threshold mode with min_distance > 1 and no limit, the
    returned frames keep the minimum distance, and no set of frames that
    pass the threshold and keep the minimum distance is larger than the
    returned one. *)
Theorem distance_selection_maximal fuel st ar :
  analysisResult st = Some ar → selectionMode st = ModeThreshold →
  1 < minFrameDistance st → maxFrames st = None →
  ∃ l,
    getSelectedFrameIndices fuel st = Some l ∧
    spaced (minFrameDistance st) l ∧
    ∀ s, StronglySorted Z.lt s →
         (∀ i, i ∈ s →
            passes_threshold (sharpness <$> frames ar) (threshold st) i) →
         spaced (minFrameDistance st) s →
         (length s ≤ length l)%nat.
Proof.
  intros Har Hmode Hmd Hmf.
  rewrite (getSelectedFrameIndices_threshold _ _ ar) by done. rewrite Hmf.
  rewrite select_threshold_unlimited by done.
  unfold kept_frames. destruct (Z.ltb_spec 1 (minFrameDistance st)); [|lia].
  eexists. split_and!; [done| |].
  - apply distance_filter_is_spaced.
  - intros s Hs Hpass Hsp.
    pose proof (above_threshold_candidates (frames ar) (threshold st))
      as [Hcs Hc].
    assert (s `sublist_of` idx <$> above_threshold (frames ar) (threshold st))
      as Hsub.
    { apply sorted_subseteq_sublist; [done|done|].
      intros i Hi. by apply Hc, Hpass. }
    apply sublist_fmap_inv in Hsub as (k' & Hk' & ->).
    rewrite !length_fmap.
    rewrite <-(distance_filter_spaced (minFrameDistance st) None k') at 1;
      [|done|done].
    apply kept_count_sublist; [done| |done].
    eapply sublist_with_index_sorted, above_threshold_sublist.
Qed.

Lemma distance_selection_maximal_witness :
  ∃ l,
    getSelectedFrameIndices 0
      (threshold_state [1; 5; 2; 8; 3]%Q 2%Q 2 None) = Some l ∧
    spaced 2 l ∧
    ∀ s, StronglySorted Z.lt s →
         (∀ i, i ∈ s →
            passes_threshold
              (sharpness <$> frames (result_of_scores [1; 5; 2; 8; 3]%Q)) 2%Q i) →
         spaced 2 s →
         (length s ≤ length l)%nat.
Proof.
  apply (distance_selection_maximal 0%nat
           (threshold_state [1; 5; 2; 8; 3]%Q 2%Q 2 None)
           (result_of_scores [1; 5; 2; 8; 3]%Q) eq_refl eq_refl);
    [simpl; lia | done].
Defined.

(** *** The count of the first component *)

Lemma sorted_spaced (l : list Z) md :
  md ≤ 1 → StronglySorted Z.lt l → spaced md l.
Proof.
  intros Hmd Hl k a b Ha Hb.
  pose proof (StronglySorted_lookup_1 Z.lt l k (S k) a b Hl ltac:(lia) Ha Hb).
  lia.
Qed.

(** With a minimum distance of 1 or less the distance loop keeps every
    candidate, so skipping it changes nothing. *)
Lemma kept_frames_distance_filter frames th md :
  kept_frames frames th md =
  distance_filter md None (above_threshold frames th).
Proof.
  unfold kept_frames. destruct (Z.ltb_spec 1 md); [done|].
  symmetry. apply distance_filter_spaced; [|done].
  apply sorted_spaced; [lia|].
  eapply idx_lt_fmap, sublist_with_index_sorted, above_threshold_sublist.
Qed.

(** X10.  With max_frames unset or not negative, the count computed by
    the first component (which always runs the distance loop) is the
    number of frames the current component selects in Threshold mode. *)
Theorem earlier_count_agrees fuel st ar :
  analysisResult st = Some ar → selectionMode st = ModeThreshold →
  (∀ m, maxFrames st = Some m → 0 ≤ m) →
  getSelectedFrameCount fuel st = Some (Earlier.getSelectedFrameCount st).
Proof.
  intros Har Hmode Hmf. unfold getSelectedFrameCount.
  rewrite (getSelectedFrameIndices_threshold _ _ ar) by done. simpl. f_equal.
  unfold Earlier.getSelectedFrameCount. rewrite Har.
  rewrite length_select_threshold, kept_frames_distance_filter.
  destruct (_ && _) eqn:Hlimit; [|done].
  apply andb_true_iff in Hlimit as [Htruthy Hlt].
  destruct (maxFrames st) as [m|]; [|done]. simpl in *.
  specialize (Hmf m eq_refl). apply Z.ltb_lt in Hlt.
  unfold JS.rel_index. destruct (Z.ltb_spec m 0); lia.
Qed.

Lemma earlier_count_agrees_witness :
  getSelectedFrameCount 0 (threshold_state [1; 5; 2; 8; 3]%Q 2%Q 1 (Some 2)) =
  Some (Earlier.getSelectedFrameCount
          (threshold_state [1; 5; 2; 8; 3]%Q 2%Q 1 (Some 2))).
Proof.
  apply (earlier_count_agrees 0%nat
           (threshold_state [1; 5; 2; 8; 3]%Q 2%Q 1 (Some 2))
           (result_of_scores [1; 5; 2; 8; 3]%Q) eq_refl eq_refl).
  intros m [= <-]. lia.
Defined.

(** *** The chart *)

Section chart_facts.
Context (round2 : Q → Q) (toFixed2 : Q → string).

Lemma getChartData_entries fuel st ar l :
  analysisResult st = Some ar → getSelectedFrameIndices fuel st = Some l →
  ∃ entries,
    getChartData round2 toFixed2 fuel st = Some entries ∧
    length entries = length (frames ar) ∧
    ∀ (k : nat) e, entries !! k = Some e →
      Chart.index e = Z.of_nat k ∧
      (∃ f, frames ar !! k = Some f ∧ Chart.frame e = frame_number f) ∧
      (Chart.isSelected e = true ↔ Z.of_nat k ∈ l) ∧
      (Chart.isManuallySelected e = true ↔
       Z.of_nat k ∈ manuallySelectedFrames st).
Proof.
  intros Har Hl. unfold getChartData. rewrite Har, Hl.
  eexists. split_and!; [done|by rewrite length_imap|].
  intros k e [f [Hf ->]]%list_lookup_imap_Some. simpl.
  split_and!; [done|by exists f| |by rewrite bool_decide_eq_true].
  rewrite orb_true_iff, andb_true_iff, !bool_decide_eq_true.
  rewrite elem_of_list_to_set. split; [|by left].
  intros [?|[Hmode Hin]]; [done|].
  rewrite (getSelectedFrameIndices_manual _ _ ar) in Hl by done.
  injection Hl as <-. by apply elem_of_select_manual.
Qed.
End chart_facts.

(** X11.  In every mode (Batch with batch_size >= 1, batch_buffer >= 0
    and one loop round per frame at its disposal) [getChartData] returns
    one entry per frame, in order; entry k carries index k and the frame
    number of frame k, is marked selected exactly when k is in the
    selection (in Manual mode as in the others), and is marked manually
    selected exactly when k is in the manual set. *)
Theorem chart_marks_selection round2 toFixed2 fuel st ar :
  analysisResult st = Some ar →
  (selectionMode st = ModeBatch →
     1 ≤ batchSize (selectionSettings st) ∧
     0 ≤ batchBuffer (selectionSettings st) ∧
     (length (frames ar) ≤ fuel)%nat) →
  ∃ l entries,
    getSelectedFrameIndices fuel st = Some l ∧
    getChartData round2 toFixed2 fuel st = Some entries ∧
    length entries = length (frames ar) ∧
    ∀ (k : nat) e, entries !! k = Some e →
      Chart.index e = Z.of_nat k ∧
      (∃ f, frames ar !! k = Some f ∧ Chart.frame e = frame_number f) ∧
      (Chart.isSelected e = true ↔ Z.of_nat k ∈ l) ∧
      (Chart.isManuallySelected e = true ↔
       Z.of_nat k ∈ manuallySelectedFrames st).
Proof.
  intros Har Hbatch.
  assert (∃ l, getSelectedFrameIndices fuel st = Some l) as [l Hl].
  { destruct (decide (selectionMode st = ModeManual)) as [Hmode|Hmode].
    - eexists. by apply (getSelectedFrameIndices_manual _ _ ar).
    - destruct (score_modes_selection fuel st ar Har Hmode Hbatch)
        as (l & Hl & _). by exists l. }
  destruct (getChartData_entries round2 toFixed2 fuel st ar l Har Hl)
    as (entries & Hchart & Hlen & Hentry).
  by exists l, entries.
Qed.

Lemma chart_marks_selection_witness :
  ∃ l entries,
    getSelectedFrameIndices 5 (batch_state [1; 5; 2; 8; 3]%Q 2 1) = Some l ∧
    getChartData (λ q, q) (λ _, String.EmptyString) 5
      (batch_state [1; 5; 2; 8; 3]%Q 2 1) = Some entries ∧
    length entries = length (frames (result_of_scores [1; 5; 2; 8; 3]%Q)) ∧
    ∀ (k : nat) e, entries !! k = Some e →
      Chart.index e = Z.of_nat k ∧
      (∃ f, frames (result_of_scores [1; 5; 2; 8; 3]%Q) !! k = Some f ∧
            Chart.frame e = frame_number f) ∧
      (Chart.isSelected e = true ↔ Z.of_nat k ∈ l) ∧
      (Chart.isManuallySelected e = true ↔
       Z.of_nat k ∈ manuallySelectedFrames (batch_state [1; 5; 2; 8; 3]%Q 2 1)).
Proof.
  apply (chart_marks_selection (λ q, q) (λ _, String.EmptyString) 5%nat
           (batch_state [1; 5; 2; 8; 3]%Q 2 1)
           (result_of_scores [1; 5; 2; 8; 3]%Q) eq_refl).
  intros _. simpl. lia.
Defined.

(** X12.  In Threshold, Batch, BestN and TopPercentage mode the number of
    chart entries marked selected is the count that
    [getSelectedFrameCount] reports. *)
Theorem chart_highlight_count round2 toFixed2 fuel st ar :
  analysisResult st = Some ar → selectionMode st ≠ ModeManual →
  (selectionMode st = ModeBatch →
     1 ≤ batchSize (selectionSettings st) ∧
     0 ≤ batchBuffer (selectionSettings st) ∧
     (length (frames ar) ≤ fuel)%nat) →
  ∃ entries c,
    getChartData round2 toFixed2 fuel st = Some entries ∧
    getSelectedFrameCount fuel st = Some c ∧
    Z.of_nat (length (filter (λ e, Chart.isSelected e = true) entries)) = c.
Proof.
  intros Har Hmanual Hbatch.
  destruct (score_modes_selection fuel st ar Har Hmanual Hbatch)
    as (l & Hl & Hs & Hrange).
  destruct (getChartData_entries round2 toFixed2 fuel st ar l Har Hl)
    as (entries & Hchart & Hlen & Hentry).
  exists entries, (Z.of_nat (length l)).
  unfold getSelectedFrameCount. rewrite Hl. split_and!; [done|done|].
  f_equal. rewrite <-(length_fmap Chart.index).
  apply Permutation_length, NoDup_Permutation.
  - eapply sublist_NoDup; [|apply fmap_sublist, sublist_filter].
    apply NoDup_alt. intros i j x Hi Hj.
    apply list_lookup_fmap_Some in Hi as (ei & -> & Hei).
    apply list_lookup_fmap_Some in Hj as (ej & Heq & Hej).
    apply Hentry in Hei as [Hi _], Hej as [Hj _]. lia.
  - by apply StronglySorted_lt_NoDup.
  - intros x. rewrite list_elem_of_fmap. split.
    + intros (e & -> & [He [k Hk]%list_elem_of_lookup]%list_elem_of_filter).
      apply Hentry in Hk as (-> & _ & Hsel & _). by apply Hsel.
    + intros Hx. specialize (Hrange x Hx).
      destruct (lookup_lt_is_Some_2 entries (Z.to_nat x)) as [e He]; [lia|].
      pose proof (Hentry _ _ He) as (Hidx & _ & Hsel & _).
      exists e. split; [lia|]. apply list_elem_of_filter. split.
      * apply Hsel. by rewrite Z2Nat.id by lia.
      * by eapply list_elem_of_lookup_2.
Qed.

Lemma chart_highlight_count_witness :
  ∃ entries c,
    getChartData (λ q, q) (λ _, String.EmptyString) 0
      (threshold_state [1; 5; 2; 8; 3]%Q 4%Q 1 None) = Some entries ∧
    getSelectedFrameCount 0
      (threshold_state [1; 5; 2; 8; 3]%Q 4%Q 1 None) = Some c ∧
    Z.of_nat (length (filter (λ e, Chart.isSelected e = true) entries)) = c.
Proof.
  apply (chart_highlight_count (λ q, q) (λ _, String.EmptyString) 0%nat
           (threshold_state [1; 5; 2; 8; 3]%Q 4%Q 1 None)
           (result_of_scores [1; 5; 2; 8; 3]%Q) eq_refl); done.
Defined.

(** *** The time range *)

Lemma onSliderEvent_invariant tr e :
  (∀ v, slider_value e = Some v → (0 <= v)%Q) →
  (0 <= startTime tr)%Q → (startTime tr < endTime tr)%Q →
  (0 <= startTime (onSliderEvent tr e))%Q ∧
  (startTime (onSliderEvent tr e) < endTime (onSliderEvent tr e))%Q ∧
  videoDuration (onSliderEvent tr e) = videoDuration tr.
Proof.
  intros Hv H0 Hlt. destruct e as [[v|]|[v|]]; simpl; try done.
  - destruct (Qle_bool (endTime tr) v) eqn:Hle; simpl; [done|].
    split_and!; [by apply Hv| |done].
    apply Qnot_le_lt. intros H%Qle_bool_iff. congruence.
  - destruct (Qle_bool v (startTime tr)) eqn:Hle; simpl; [done|].
    split_and!; [done| |done].
    apply Qnot_le_lt. intros H%Qle_bool_iff. congruence.
Qed.

(** X13.  After the metadata of a video of positive duration has arrived,
    whatever the two sliders report in whatever order (each value not
    negative, or NaN), the start stays at or above 0 and strictly below
    the end, and [analyzeVideo] passes exactly that start and end to the
    backend, never the whole-video default. *)
Theorem slider_range_invariant (d : Q) (events : list SliderEvent) :
  (0 < d)%Q →
  Forall (λ e, ∀ v, slider_value e = Some v → (0 <= v)%Q) events →
  (0 <= startTime (foldl onSliderEvent (metadataLoaded d) events))%Q ∧
  (startTime (foldl onSliderEvent (metadataLoaded d) events)
     < endTime (foldl onSliderEvent (metadataLoaded d) events))%Q ∧
  videoDuration (foldl onSliderEvent (metadataLoaded d) events) = d ∧
  analyzeVideo_range (foldl onSliderEvent (metadataLoaded d) events) =
    (Some (startTime (foldl onSliderEvent (metadataLoaded d) events)),
     Some (endTime (foldl onSliderEvent (metadataLoaded d) events))).
Proof.
  intros Hd Hev.
  cut (∀ tr, (0 <= startTime tr)%Q → (startTime tr < endTime tr)%Q →
         (0 <= startTime (foldl onSliderEvent tr events))%Q ∧
         (startTime (foldl onSliderEvent tr events)
            < endTime (foldl onSliderEvent tr events))%Q ∧
         videoDuration (foldl onSliderEvent tr events) = videoDuration tr).
  { intros Hinv.
    destruct (Hinv (metadataLoaded d)) as (H0 & Hlt & Hdur); [done|done|].
    split_and!; [done|done|done|].
    unfold analyzeVideo_range.
    assert (Qle_bool (endTime (foldl onSliderEvent (metadataLoaded d) events)) 0
            = false) as ->.
    { apply not_true_iff_false. intros H%Qle_bool_iff. lra. }
    by rewrite orb_true_r. }
  induction Hev as [|e events He Hev IH]; intros tr H0 Hlt; simpl; [done|].
  destruct (onSliderEvent_invariant tr e He H0 Hlt) as (H0' & Hlt' & Hdur).
  destruct (IH _ H0' Hlt') as (? & ? & ?). split_and!; [done|done|congruence].
Qed.

Lemma slider_range_invariant_witness :
  (0 <= startTime (foldl onSliderEvent (metadataLoaded 10)
                     [StartSlider (Some 4%Q); EndSlider (Some 2%Q);
                      EndSlider None; EndSlider (Some 6%Q)]))%Q ∧
  (startTime (foldl onSliderEvent (metadataLoaded 10)
                [StartSlider (Some 4%Q); EndSlider (Some 2%Q);
                 EndSlider None; EndSlider (Some 6%Q)])
     < endTime (foldl onSliderEvent (metadataLoaded 10)
                  [StartSlider (Some 4%Q); EndSlider (Some 2%Q);
                   EndSlider None; EndSlider (Some 6%Q)]))%Q ∧
  videoDuration (foldl onSliderEvent (metadataLoaded 10)
                   [StartSlider (Some 4%Q); EndSlider (Some 2%Q);
                    EndSlider None; EndSlider (Some 6%Q)]) = 10%Q ∧
  analyzeVideo_range (foldl onSliderEvent (metadataLoaded 10)
                        [StartSlider (Some 4%Q); EndSlider (Some 2%Q);
                         EndSlider None; EndSlider (Some 6%Q)]) =
    (Some (startTime (foldl onSliderEvent (metadataLoaded 10)
                        [StartSlider (Some 4%Q); EndSlider (Some 2%Q);
                         EndSlider None; EndSlider (Some 6%Q)])),
     Some (endTime (foldl onSliderEvent (metadataLoaded 10)
                      [StartSlider (Some 4%Q); EndSlider (Some 2%Q);
                       EndSlider None; EndSlider (Some 6%Q)]))).
Proof.
  apply (slider_range_invariant 10%Q
           [StartSlider (Some 4%Q); EndSlider (Some 2%Q);
            EndSlider None; EndSlider (Some 6%Q)]).
  - by vm_compute.
  - repeat constructor; intros v [= <-]; by vm_compute.
Defined.

(** *** The export folder *)

Section path_facts.
Implicit Types (s : list ascii) (sep : ascii).

Lemma is_char_true c d : Path.is_char c d = true ↔ c = d.
Proof. unfold Path.is_char. apply bool_decide_eq_true. Qed.

Lemma is_char_false c d : Path.is_char c d = false ↔ c ≠ d.
Proof. unfold Path.is_char. apply bool_decide_eq_false. Qed.

Lemma split_not_nil sep s : Path.split sep s ≠ [].
Proof.
  destruct s as [|c s]; simpl; [done|].
  destruct (Path.is_char c sep); [done|]. by destruct (Path.split sep s).
Qed.

(** No piece of a split holds the separator, and every character of a
    piece is a character of the string. *)
Lemma split_pieces sep s piece :
  piece ∈ Path.split sep s → (sep ∉ piece) ∧ (∀ c, c ∈ piece → c ∈ s).
Proof.
  revert piece. induction s as [|c s IH]; intros piece; simpl.
  { intros ->%list_elem_of_singleton. split; [apply not_elem_of_nil|done]. }
  destruct (Path.is_char c sep) eqn:Hc.
  - intros [->|Hin]%elem_of_cons.
    + split; [apply not_elem_of_nil|]. by intros d ?%elem_of_nil.
    + destruct (IH piece Hin) as [? Hsub]. split; [done|].
      intros d Hd. right. by apply Hsub.
  - apply is_char_false in Hc.
    pose proof (split_not_nil sep s) as Hne.
    destruct (Path.split sep s) as [|p ps]; [done|].
    intros [->|Hin]%elem_of_cons.
    + destruct (IH p ltac:(by left)) as [Hp Hsub]. split.
      * intros [?|?]%elem_of_cons; [by subst|done].
      * intros d [->|Hd]%elem_of_cons; [by left | right; by apply Hsub].
    + destruct (IH piece ltac:(by right)) as [? Hsub]. split; [done|].
      intros d Hd. right. by apply Hsub.
Qed.

Lemma split_app sep s1 s2 :
  Path.split sep (s1 ++ sep :: s2) = Path.split sep s1 ++ Path.split sep s2.
Proof.
  induction s1 as [|c s1 IH]; simpl.
  { assert (Path.is_char sep sep = true) as -> by (by apply is_char_true).
    done. }
  destruct (Path.is_char c sep); [by rewrite IH|]. rewrite IH.
  pose proof (split_not_nil sep s1). by destruct (Path.split sep s1).
Qed.

Lemma split_no_sep sep s : sep ∉ s → Path.split sep s = [s].
Proof.
  induction s as [|c s IH]; simpl; [done|].
  intros [Hc Hs]%not_elem_of_cons.
  assert (Path.is_char c sep = false) as -> by (by apply is_char_false).
  by rewrite IH.
Qed.

Lemma strip_extension_prefix s : ∃ r, s = Path.strip_extension s ++ r.
Proof.
  induction s as [|c s [r Hr]]; simpl; [by exists []|].
  destruct (_ && _); [by eexists|]. exists r. simpl. by f_equal.
Qed.

Lemma strip_extension_stem stem ext :
  ext ≠ [] → ("/"%char ∉ ext) → ("."%char ∉ ext) →
  Path.strip_extension (stem ++ "."%char :: ext) = stem.
Proof.
  intros Hne Hslash Hdot.
  assert (forallb (λ d, negb (Path.is_char d "/" || Path.is_char d ".")) ext
          = true) as Hext.
  { apply forallb_forall. intros d Hd%list_elem_of_In.
    apply negb_true_iff, orb_false_iff.
    split; apply is_char_false; by intros ->. }
  induction stem as [|c stem IH]; simpl.
  - rewrite Hext. rewrite bool_decide_eq_false_2 by done. done.
  - rewrite IH.
    assert (forallb (λ d, negb (Path.is_char d "/" || Path.is_char d "."))
              (stem ++ "."%char :: ext) = false) as ->.
    { apply not_true_iff_false. rewrite forallb_forall. intros Hall.
      specialize (Hall "."%char).
      rewrite <-list_elem_of_In, elem_of_app, elem_of_cons in Hall.
      specialize (Hall ltac:(right; by left)).
      by rewrite orb_true_r in Hall. }
    by rewrite andb_false_r.
Qed.

Lemma videoName_chars videoPath :
  Path.videoName videoPath ≠ [] ∧ ("/"%char ∉ Path.videoName videoPath).
Proof.
  unfold Path.videoName.
  set (name := default [] (last (Path.split "/" videoPath))).
  assert ("/"%char ∉ name) as Hname.
  { unfold name. destruct (last (Path.split "/" videoPath)) as [p|] eqn:Hp;
      [|apply not_elem_of_nil].
    apply last_Some_elem_of in Hp. by apply split_pieces in Hp as [? _]. }
  case_bool_decide as Hnil.
  - split; [done|]. simpl. rewrite !not_elem_of_cons. split_and!; try done.
    apply not_elem_of_nil.
  - split; [done|]. destruct (strip_extension_prefix name) as [r Hr].
    intros Hin. apply Hname. rewrite Hr. apply elem_of_app. by left.
Qed.
End path_facts.

Lemma last_split_dir (dir name : list ascii) :
  ("/"%char ∉ name) →
  last (Path.split "/" (dir ++ "/"%char :: name)) = Some name.
Proof.
  intros Hname. rewrite split_app, (split_no_sep _ name) by done.
  apply last_snoc.
Qed.

Lemma timestamp_chars iso c :
  c ∈ Path.timestamp iso → c ∈ iso ∨ c = "-"%char.
Proof.
  unfold Path.timestamp.
  destruct (head _) as [piece|] eqn:Hhead; simpl; [|by intros ?%elem_of_nil].
  apply head_Some_elem_of, split_pieces in Hhead as [_ Hsub].
  intros (d & -> & Hd)%Hsub%list_elem_of_fmap.
  destruct (_ || _); [by right | by left].
Qed.

Lemma timestamp_date (date rest : list ascii) :
  ("T"%char ∉ date) → (":"%char ∉ date) → ("."%char ∉ date) →
  Path.timestamp (date ++ "T"%char :: rest) = date.
Proof.
  intros HT Hcolon Hdot. unfold Path.timestamp.
  rewrite fmap_app, fmap_cons. simpl.
  assert ((λ c, if Path.is_char c ":" || Path.is_char c "."
                then "-"%char else c) <$> date = date) as ->.
  { clear HT. induction date as [|c date IH]; csimpl; [done|].
    apply not_elem_of_cons in Hcolon as [? ?], Hdot as [? ?].
    rewrite IH by done.
    assert (Path.is_char c ":" = false) as -> by (by apply is_char_false).
    assert (Path.is_char c "." = false) as -> by (by apply is_char_false).
    done. }
  rewrite split_app, (split_no_sep _ date) by done. done.
Qed.

(** X14.  The folder that [exportFrames] creates is one path component
    below the chosen directory: the video's name is never empty and holds
    no slash, so, for a date string without slash, the folder name holds
    none either and is the last component of the output path.  For an ISO
    date string the folder name ends in the date part. *)
Theorem export_folder_is_one_component (baseDir videoPath iso : list ascii) :
  ("/"%char ∉ iso) →
  Path.videoName videoPath ≠ [] ∧
  ("/"%char ∉ Path.folderName videoPath iso) ∧
  last (Path.split "/" (Path.outputDir baseDir videoPath iso)) =
    Some (Path.folderName videoPath iso) ∧
  (∀ date rest,
     iso = date ++ "T"%char :: rest →
     ("T"%char ∉ date) → (":"%char ∉ date) → ("."%char ∉ date) →
     Path.folderName videoPath iso =
     Path.videoName videoPath ++ String.list_ascii_of_string "_frames_" ++ date).
Proof.
  intros Hiso. destruct (videoName_chars videoPath) as [Hne Hslash].
  assert ("/"%char ∉ Path.folderName videoPath iso) as Hfolder.
  { assert (("/"%char ∉ String.list_ascii_of_string "_frames_")) as Hmid
      by (apply (bool_decide_unpack _); by vm_compute).
    unfold Path.folderName. rewrite !elem_of_app.
    intros [?|[?|Hin]]; [done|done|].
    by apply timestamp_chars in Hin as [?|?]. }
  split_and!; [done|done| |].
  - unfold Path.outputDir. simpl. by apply last_split_dir.
  - intros date rest -> HT Hcolon Hdot. unfold Path.folderName.
    by rewrite timestamp_date.
Qed.

Lemma export_folder_is_one_component_witness :
  Path.videoName (String.list_ascii_of_string "/home/u/clip.mp4") ≠ [] ∧
  ("/"%char ∉ Path.folderName (String.list_ascii_of_string "/home/u/clip.mp4")
                (String.list_ascii_of_string "2025-01-02T03:04:05.678Z")) ∧
  last (Path.split "/"
          (Path.outputDir (String.list_ascii_of_string "/out")
             (String.list_ascii_of_string "/home/u/clip.mp4")
             (String.list_ascii_of_string "2025-01-02T03:04:05.678Z"))) =
    Some (Path.folderName (String.list_ascii_of_string "/home/u/clip.mp4")
            (String.list_ascii_of_string "2025-01-02T03:04:05.678Z")) ∧
  (∀ date rest,
     String.list_ascii_of_string "2025-01-02T03:04:05.678Z"
       = date ++ "T"%char :: rest →
     ("T"%char ∉ date) → (":"%char ∉ date) → ("."%char ∉ date) →
     Path.folderName (String.list_ascii_of_string "/home/u/clip.mp4")
       (String.list_ascii_of_string "2025-01-02T03:04:05.678Z") =
     Path.videoName (String.list_ascii_of_string "/home/u/clip.mp4")
       ++ String.list_ascii_of_string "_frames_" ++ date).
Proof.
  apply (export_folder_is_one_component
           (String.list_ascii_of_string "/out")
           (String.list_ascii_of_string "/home/u/clip.mp4")
           (String.list_ascii_of_string "2025-01-02T03:04:05.678Z")).
  apply (bool_decide_unpack _). by vm_compute.
Defined.

(** X15.  For a path whose last component is a stem, a dot and an
    extension (the extension not empty, without dot or slash; the stem
    without slash), the video's name is the stem, with or without a
    directory in front; when the stem is empty, as for a file named
    ".mp4", the name is "video". *)
Theorem videoName_is_stem (stem ext : list ascii) :
  ("/"%char ∉ stem) → ext ≠ [] → ("/"%char ∉ ext) → ("."%char ∉ ext) →
  Path.videoName (stem ++ "."%char :: ext) =
    (if bool_decide (stem = [])
     then String.list_ascii_of_string "video" else stem) ∧
  ∀ dir,
    Path.videoName (dir ++ "/"%char :: stem ++ "."%char :: ext) =
    (if bool_decide (stem = [])
     then String.list_ascii_of_string "video" else stem).
Proof.
  intros Hstem Hne Hslash Hdot.
  assert ("/"%char ∉ stem ++ "."%char :: ext) as Hbase.
  { rewrite elem_of_app, elem_of_cons. intros [?|[?|?]]; done. }
  assert (∀ p, last (Path.split "/" p) = Some (stem ++ "."%char :: ext) →
               Path.videoName p =
               if bool_decide (stem = [])
               then String.list_ascii_of_string "video" else stem) as Hname.
  { intros p Hp. unfold Path.videoName. rewrite Hp. simpl.
    by rewrite strip_extension_stem. }
  split.
  - apply Hname. by rewrite split_no_sep.
  - intros dir. apply Hname. by apply last_split_dir.
Qed.

Lemma videoName_is_stem_witness :
  Path.videoName (String.list_ascii_of_string "archive.tar.gz")
    = String.list_ascii_of_string "archive.tar" ∧
  ∀ dir,
    Path.videoName (dir ++ "/"%char :: String.list_ascii_of_string "archive.tar.gz")
    = String.list_ascii_of_string "archive.tar".
Proof.
  apply (videoName_is_stem (String.list_ascii_of_string "archive.tar")
           (String.list_ascii_of_string "gz")).
  - apply (bool_decide_unpack _). by vm_compute.
  - done.
  - apply (bool_decide_unpack _). by vm_compute.
  - apply (bool_decide_unpack _). by vm_compute.
Defined.

(** *** Asking for more *)

Lemma select_bestN_grows scores n n' i :
  0 ≤ n ≤ n' → i ∈ select_bestN scores n → i ∈ select_bestN scores n'.
Proof.
  intros Hn. unfold select_bestN.
  rewrite !sort_elem_of, !slice_from_0 by lia.
  rewrite !list_elem_of_fmap. intros (a & -> & Ha). exists a. split; [done|].
  eapply (sublist_subseteq _ _ (sublist_take _ (Z.to_nat n))).
  rewrite take_take. by replace (Z.to_nat n `min` Z.to_nat n')%nat
    with (Z.to_nat n) by lia.
Qed.

Lemma ceil_div_mono a a' b : 0 < b → a ≤ a' → JS.ceil_div a b ≤ JS.ceil_div a' b.
Proof.
  intros Hb Ha. unfold JS.ceil_div.
  pose proof (Z.div_le_mono (- a') (- a) b Hb ltac:(lia)). lia.
Qed.

(** X16.  In BestN mode raising n (from a value that is not negative)
    keeps every frame already selected. *)
Theorem bestN_more_keeps_frames fuel st ar (n' : Z) :
  analysisResult st = Some ar → selectionMode st = ModeBestN →
  0 ≤ bestN (selectionSettings st) ≤ n' →
  ∃ l l',
    getSelectedFrameIndices fuel st = Some l ∧
    getSelectedFrameIndices fuel
      (setSelectionSettings (with_bestN n' (selectionSettings st)) st)
    = Some l' ∧
    ∀ i, i ∈ l → i ∈ l'.
Proof.
  intros Har Hmode Hn.
  rewrite !(getSelectedFrameIndices_bestN _ _ ar) by done. simpl.
  eexists _, _. split_and!; [done|done|].
  intros i. by apply select_bestN_grows.
Qed.

Lemma bestN_more_keeps_frames_witness :
  ∃ l l',
    getSelectedFrameIndices 0 (bestN_state [1; 5; 2; 8; 3]%Q 2) = Some l ∧
    getSelectedFrameIndices 0
      (setSelectionSettings
         (with_bestN 4 (selectionSettings (bestN_state [1; 5; 2; 8; 3]%Q 2)))
         (bestN_state [1; 5; 2; 8; 3]%Q 2)) = Some l' ∧
    ∀ i, i ∈ l → i ∈ l'.
Proof.
  apply (bestN_more_keeps_frames 0%nat (bestN_state [1; 5; 2; 8; 3]%Q 2)
           (result_of_scores [1; 5; 2; 8; 3]%Q) 4 eq_refl eq_refl).
  simpl. lia.
Defined.

(** X17.  In TopPercentage mode raising the percentage (from a value
    that is not negative) keeps every frame already selected. *)
Theorem topPercentage_more_keeps_frames fuel st ar (pct' : Z) :
  analysisResult st = Some ar → selectionMode st = ModeTopPercentage →
  0 ≤ topPercentage (selectionSettings st) ≤ pct' →
  ∃ l l',
    getSelectedFrameIndices fuel st = Some l ∧
    getSelectedFrameIndices fuel
      (setSelectionSettings (with_topPercentage pct' (selectionSettings st)) st)
    = Some l' ∧
    ∀ i, i ∈ l → i ∈ l'.
Proof.
  intros Har Hmode Hpct.
  rewrite !(getSelectedFrameIndices_topPercentage _ _ ar) by done. simpl.
  rewrite !select_topPercentage_bestN.
  eexists _, _. split_and!; [done|done|].
  intros i. apply select_bestN_grows. split.
  - pose proof (ceil_div_mono 0
      (Z.of_nat (length (sharpness <$> frames ar)) *
       topPercentage (selectionSettings st)) 100 ltac:(lia) ltac:(nia)) as H0.
    by vm_compute (JS.ceil_div 0 100) in H0.
  - apply ceil_div_mono; [lia|nia].
Qed.

Lemma topPercentage_more_keeps_frames_witness :
  ∃ l l',
    getSelectedFrameIndices 0 (topPercentage_state [1; 5; 2; 8; 3]%Q 30) = Some l ∧
    getSelectedFrameIndices 0
      (setSelectionSettings
         (with_topPercentage 70
            (selectionSettings (topPercentage_state [1; 5; 2; 8; 3]%Q 30)))
         (topPercentage_state [1; 5; 2; 8; 3]%Q 30)) = Some l' ∧
    ∀ i, i ∈ l → i ∈ l'.
Proof.
  apply (topPercentage_more_keeps_frames 0%nat
           (topPercentage_state [1; 5; 2; 8; 3]%Q 30)
           (result_of_scores [1; 5; 2; 8; 3]%Q) 70 eq_refl eq_refl).
  simpl. lia.
Defined.
